(** * Gluing rules and weights of the infinite surface families of sage-flatsurf

    A shallow embedding of
    [flatsurf/geometry/similarity_surface_generators.py],
    [flatsurf/geometry/chamanara.py] and of the older top-level copy
    [similarity_surface_generators.py], followed by the properties proved
    about them.

    Python integers and Sage [ZZ] elements are [Z]; [%] with a positive
    modulus is [Z.modulo].  A raised exception is the [Raise] branch of
    [result].  The exact field of a surface is an [ExactField] instance. *)

From Stdlib Require Import ZArith QArith Lia String List.
From Equations Require Import Equations.
From stdpp Require Import base decidable option list gmap strings.

Open Scope Z_scope.

(** ** Exceptions and results *)

(** The exceptions the modelled code can raise.  A [ValueError] carries the
    format string of its message, before substitution. *)
Inductive exn : Set :=
| ValueError (msg : string)
| ZeroDivisionError
| NameError (name : string)
| UnboundLocalError (name : string)
| AttributeError (name : string).

Inductive result (A : Type) : Type :=
| Ok (a : A)
| Raise (e : exn).
Arguments Ok {A} a.
Arguments Raise {A} e.

#[global] Instance result_ret : MRet result := fun A a => Ok a.
#[global] Instance result_bind : MBind result := fun A B f r =>
  match r with
  | Ok a => f a
  | Raise e => Raise e
  end.

(** ** The exact field (an external collaborator) *)

Class ExactField (F : Type) := {
  of_Z : Z -> F;
  fadd : F -> F -> F;
  fsub : F -> F -> F;
  fmul : F -> F -> F;
  fdiv : F -> F -> F;
  fopp : F -> F;
  feqb : F -> F -> bool;
  fleb : F -> F -> bool
}.

Declare Scope field_scope.
Delimit Scope field_scope with F.
Infix "+" := fadd : field_scope.
Infix "-" := fsub : field_scope.
Infix "*" := fmul : field_scope.
Infix "/" := fdiv : field_scope.
Notation "- x" := (fopp x) : field_scope.

(** [x ** n] for a non-negative machine integer [n]. *)
Fixpoint fpow {F} `{ExactField F} (x : F) (n : nat) : F :=
  match n with
  | O => of_Z 1
  | S k => (x * fpow x k)%F
  end.

(** [x / y]: Sage raises [ZeroDivisionError] on a zero divisor. *)
Definition checked_div {F} `{ExactField F} (x y : F) : result F :=
  if feqb y (of_Z 0) then Raise ZeroDivisionError else Ok (x / y)%F.

(** Rationals in lowest terms, as Sage's [QQ] keeps them. *)
#[global] Instance QQ : ExactField Q := {|
  of_Z := inject_Z;
  fadd x y := Qred (Qplus x y);
  fsub x y := Qred (Qminus x y);
  fmul x y := Qred (Qmult x y);
  fdiv x y := Qred (Qdiv x y);
  fopp x := Qred (Qopp x);
  feqb := Qeq_bool;
  fleb := Qle_bool
|}.

(** ** Polygons (an external collaborator) *)

(** Modelled from the spec: [flatsurf.geometry.polygon] is not part of the
    sources; a polygon is the ordered sequence of its edge vectors over the
    exact field, [polygons.square()] is the unit square, [rectangle(w,h)]
    the axis-parallel rectangle and [c * P] scales every edge vector. *)
Definition Polygon (F : Type) : Type := list (F * F).

Definition square {F} `{ExactField F} : Polygon F :=
  [(of_Z 1, of_Z 0); (of_Z 0, of_Z 1); (of_Z (-1), of_Z 0); (of_Z 0, of_Z (-1))].

Definition rectangle {F} `{ExactField F} (w h : F) : Polygon F :=
  [(w, of_Z 0); (of_Z 0, h); ((- w)%F, of_Z 0); (of_Z 0, (- h)%F)].

Definition scale {F} `{ExactField F} (c : F) (P : Polygon F) : Polygon F :=
  map (fun v => ((c * fst v)%F, (c * snd v)%F)) P.

(** ** The infinite staircase *)

Module InfiniteStaircase.

(** [polygon_labels] is [ZZ]: every integer is a label. *)
Definition polygon_labels (lab : Z) : bool := true.

Definition polygon {F} `{ExactField F} (lab : Z) : result (Polygon F) :=
  if negb (polygon_labels lab)
  then Raise (ValueError "lab (=%s) not a valid label")
  else Ok square.

Definition opposite_edge (p e : Z) : Z * Z :=
  if decide ((p + e) `mod` 2 ≠ 0)
  then (p + 1, (e + 2) `mod` 4)
  else (p - 1, (e + 2) `mod` 4).

End InfiniteStaircase.

(** ** The E-infinity surface *)

Module EInfinity.

(** The two [cached_method]s [get_white] and [get_black] call each other;
    [colour] tags which of the two is running. *)
Inductive colour : Set := White | Black.

(** Distance of a call to the base cases [{-1,0,1,2}]: a call only makes
    calls of smaller distance. *)
Definition dist (c : colour) (n : Z) : nat :=
  match c with
  | White => Z.to_nat (if decide (0 <= n) then 2 * n + 1 else 2 * (- n) + 2)
  | Black => Z.to_nat (if decide (0 <= n) then 2 * n else 2 * (1 - n) + 1)
  end.

Section Weights.
Context {F : Type} `{ExactField F}.
(** [self._l] *)
Variable l : F.

(** The values the two methods return, as one function of the method
    and its argument; each clause is one [if] of the source, in order. *)
Equations? weight (c : colour) (n : Z) : F by wf (dist c n) lt :=
  weight White n with decide (n = 0 ∨ n = 1) := {
    | left _ := l
    | right _ with decide (n = -1) := {
      | left _ := (l - of_Z 1)%F
      | right _ with decide (n = 2) := {
        | left _ := (of_Z 1 - of_Z 3 * l + fpow l 2)%F
        | right _ with decide (n > 2) := {
          | left _ :=
              let x := weight White (n - 1) in
              let y := weight Black n in
              (l * y - x)%F
          | right _ := weight White (- n) } } } };
  weight Black n with decide (n = 0) := {
    | left _ := of_Z 1
    | right _ with decide (n = 1 ∨ n = -1 ∨ n = 2) := {
      | left _ := (l - of_Z 1)%F
      | right _ with decide (n > 2) := {
        | left _ :=
            let x := weight Black (n - 1) in
            let y := weight White (n - 1) in
            (y - x)%F
        | right _ := weight Black (1 - n) } } }.
Proof.
  all: unfold dist; repeat case_decide; lia.
Qed.

Definition get_white (n : Z) : F := weight White n.
Definition get_black (n : Z) : F := weight Black n.

(** *** The methods as they run: bounded call depth and the two caches *)

(** The caches of the two [cached_method]s, keyed by the argument. *)
Record caches : Type := {
  white_cache : gmap Z F;
  black_cache : gmap Z F
}.

Definition empty_caches : caches :=
  {| white_cache := ∅; black_cache := ∅ |}.

Definition store_white (n : Z) (v : F) (st : caches) : caches :=
  {| white_cache := <[n := v]> (white_cache st);
     black_cache := black_cache st |}.

Definition store_black (n : Z) (v : F) (st : caches) : caches :=
  {| white_cache := white_cache st;
     black_cache := <[n := v]> (black_cache st) |}.

(** [depth] bounds the nesting of calls (the interpreter's recursion
    limit); [None] is a call chain deeper than [depth]. *)
Fixpoint run_white (depth : nat) (n : Z) (st : caches) : option (F * caches) :=
  match depth with
  | O => None
  | S d =>
      match white_cache st !! n with
      | Some v => Some (v, st)
      | None =>
          '(v, st') ←
            (if decide (n = 0 ∨ n = 1) then Some (l, st)
             else if decide (n = -1) then Some ((l - of_Z 1)%F, st)
             else if decide (n = 2)
               then Some ((of_Z 1 - of_Z 3 * l + fpow l 2)%F, st)
             else if decide (n > 2) then
               '(x, st1) ← run_white d (n - 1) st;
               '(y, st2) ← run_black d n st1;
               Some ((l * y - x)%F, st2)
             else run_white d (- n) st);
          Some (v, store_white n v st')
      end
  end
with run_black (depth : nat) (n : Z) (st : caches) : option (F * caches) :=
  match depth with
  | O => None
  | S d =>
      match black_cache st !! n with
      | Some v => Some (v, st)
      | None =>
          '(v, st') ←
            (if decide (n = 0) then Some (of_Z 1, st)
             else if decide (n = 1 ∨ n = -1 ∨ n = 2)
               then Some ((l - of_Z 1)%F, st)
             else if decide (n > 2) then
               '(x, st1) ← run_black d (n - 1) st;
               '(y, st2) ← run_white d (n - 1) st1;
               Some ((y - x)%F, st2)
             else run_black d (1 - n) st);
          Some (v, store_black n v st')
      end
  end.

(** Every cached value is the value the method computes. *)
Definition caches_sound (st : caches) : Prop :=
  (∀ n v, white_cache st !! n = Some v → v = get_white n) ∧
  (∀ n v, black_cache st !! n = Some v → v = get_black n).

(** Caches only grow. *)
Definition caches_le (st st' : caches) : Prop :=
  white_cache st ⊆ white_cache st' ∧ black_cache st ⊆ black_cache st'.

Definition polygon_labels (lab : Z) : bool := true.

Definition polygon (lab : Z) : result (Polygon F) :=
  if negb (polygon_labels lab)
  then Raise (ValueError "lab (=%s) not a valid label")
  else Ok (rectangle (of_Z 2 * get_black lab)%F (get_white lab)).

End Weights.

(** One block [if e==0: return r0 ... if e==3: return r3] of the case
    table; [None] when no [return] is reached and control falls through
    to the next statement. *)
Definition edge_table (e : Z) (r0 r1 r2 r3 : Z * Z) : option (Z * Z) :=
  if decide (e = 0) then Some r0
  else if decide (e = 1) then Some r1
  else if decide (e = 2) then Some r2
  else if decide (e = 3) then Some r3
  else None.

Definition special_labels (p e : Z) : option (Z * Z) :=
  match (if decide (p = 0)
         then edge_table e (0, 2) (1, 3) (0, 0) (1, 1) else None) with
  | Some r => Some r
  | None =>
  match (if decide (p = 1)
         then edge_table e (-1, 2) (0, 3) (2, 0) (0, 1) else None) with
  | Some r => Some r
  | None =>
  match (if decide (p = -1)
         then edge_table e (2, 2) (-1, 3) (1, 0) (-1, 1) else None) with
  | Some r => Some r
  | None =>
    if decide (p = 2)
    then edge_table e (1, 2) (-2, 3) (-1, 0) (-2, 1) else None
  end end end.

Definition opposite_edge (p e : Z) : Z * Z :=
  match special_labels p e with
  | Some r => r
  | None =>
      if decide (p > 2) then
        if decide (e `mod` 2 ≠ 0) then (- p, (e + 2) `mod` 4)
        else (1 - p, (e + 2) `mod` 4)
      else
        if decide (e `mod` 2 ≠ 0) then (- p, (e + 2) `mod` 4)
        else (1 - p, (e + 2) `mod` 4)
  end.

End EInfinity.

(** ** The T-fractal surface *)

Module TFractal.

(** [Words('LR', finite=True, infinite=False)] *)
Inductive letter : Set := L | R.
Definition word : Type := list letter.

#[global] Instance letter_eq_dec : EqDecision letter.
Proof. solve_decision. Defined.

(** A label is a pair of a word and an integer tag. *)
Definition label : Type := word * Z.

(** [cartesian_product([self._words, FiniteEnumeratedSet([0,1,2,3])])] *)
Definition polygon_labels (lab : label) : bool :=
  bool_decide (lab.2 = 0 ∨ lab.2 = 1 ∨ lab.2 = 2 ∨ lab.2 = 3).

(** The branch shared by [(i,e) = (0,0)] and [(2,2)]:
    [if w.is_empty(): lab=(w,loop) elif w[-1]=='L': lab=(w[:-1],1)
     elif w[-1]=='R': lab=(w[:-1],3)]. *)
Definition ascend (w : word) (loop : Z) : label :=
  match last w with
  | None => (w, loop)
  | Some L => (removelast w, 1)
  | Some R => (removelast w, 3)
  end.

(** Four consecutive [if e == k: lab = ...]; when none fires [lab] stays
    unbound and its use raises. *)
Definition by_edge (e : Z) (l0 l1 l2 l3 : label) : result label :=
  if decide (e = 0) then Ok l0
  else if decide (e = 1) then Ok l1
  else if decide (e = 2) then Ok l2
  else if decide (e = 3) then Ok l3
  else Raise (UnboundLocalError "lab").

Definition opposite_edge (p : label) (e : Z) : result (label * Z) :=
  let '(w, i) := p in
  f ← (if decide (e = 0) then Ok 2
       else if decide (e = 1) then Ok 3
       else if decide (e = 2) then Ok 0
       else if decide (e = 3) then Ok 1
       else Raise (ValueError "e (={!r}) must be either 0,1,2 or 3"));
  lab ← (if decide (i = 0) then
           by_edge e (ascend w 2) (w, 0) (w, 2) (w, 0)
         else if decide (i = 1) then
           by_edge e (w ++ [L], 2) (w, 2) (w ++ [L], 0) (w, 3)
         else if decide (i = 2) then
           by_edge e (w, 0) (w, 3) (ascend w 0) (w, 1)
         else if decide (i = 3) then
           by_edge e (w ++ [R], 2) (w, 1) (w ++ [R], 0) (w, 2)
         else Raise (ValueError "i (={!r}) must be either 0,1,2 or 3"));
  Ok (lab, f).

Definition base_label : label := ([], 0).

Section Shape.
Context {F : Type} `{ExactField F}.
(** [self._w], [self._r], [self._h1], [self._h2] *)
Variables (w_ r_ h1 h2 : F).

(** [Polygons(self.base_ring())([(w,0),(0,h),(-w,0),(0,-h)])] *)
Definition box (w h : F) : Polygon F :=
  [(w, of_Z 0); (of_Z 0, h); ((- w)%F, of_Z 0); (of_Z 0, (- h)%F)].

(** [_base_polygon]: three consecutive [if]s bind [w] and [h]. *)
Definition base_polygon (i : Z) : result (Polygon F) :=
  wh0 ← (if decide (i = 0) then Ok (Some (w_, h1)) else Ok None);
  wh1 ← (if decide (i = 1 ∨ i = 3)
         then q ← checked_div w_ r_; Ok (Some (q, h2))
         else Ok wh0);
  wh2 ← (if decide (i = 2) then Ok (Some (w_, h2)) else Ok wh1);
  match wh2 with
  | Some (w, h) => Ok (box w h)
  | None => Raise (UnboundLocalError "w")
  end.

Definition polygon (lab : label) : result (Polygon F) :=
  let w := lab.1 in
  c ← checked_div (of_Z 1) (fpow r_ (length w));
  b ← base_polygon lab.2;
  Ok (scale c b).

End Shape.

End TFractal.

(** ** The older top-level copy of the module *)

Module TopLevelCopy.

Import TFractal.

(** What a name of the module can be bound to, as far as [polygon]
    can tell apart. *)
Inductive value : Type :=
| VWord (w : word)
| VInteger (z : Z)
| VObject.

(** The names bound at module level: the two imports, [ZZ_1], [ZZ_2], the
    base class and the five classes.  No builtin has a one-letter name. *)
Definition module_globals : gmap string value :=
  list_to_map
    [ ("ZZ", VObject); ("cached_method", VObject);
      ("ZZ_1", VInteger 1); ("ZZ_2", VInteger 2);
      ("TranslationSurface_generic", VObject);
      ("InfiniteStaircase", VObject); ("EInfinity", VObject);
      ("TFractal", VObject); ("SimilaritySurfaceGenerators", VObject);
      ("TranslationSurfaceGenerators", VObject) ].

(** [opposite_edge] of the copy: every case returns at once, nothing is
    validated, and a call that matches no case returns [None]. *)
Definition by_edge_return (e : Z) (r0 r1 r2 r3 : label * Z)
  : option (label * Z) :=
  if decide (e = 0) then Some r0
  else if decide (e = 1) then Some r1
  else if decide (e = 2) then Some r2
  else if decide (e = 3) then Some r3
  else None.

Definition opposite_edge (p : label) (e : Z) : option (label * Z) :=
  let '(w, i) := p in
  match (if decide (i = 0) then
           by_edge_return e (ascend w 2, 2) ((w, 0), 3) ((w, 2), 0) ((w, 0), 1)
         else None) with
  | Some r => Some r
  | None =>
  match (if decide (i = 1) then
           by_edge_return e ((w ++ [L], 2), 2) ((w, 2), 3)
                            ((w ++ [L], 0), 0) ((w, 3), 1)
         else None) with
  | Some r => Some r
  | None =>
  match (if decide (i = 2) then
           by_edge_return e ((w, 0), 2) ((w, 3), 3) (ascend w 0, 0) ((w, 1), 1)
         else None) with
  | Some r => Some r
  | None =>
    if decide (i = 3) then
      by_edge_return e ((w ++ [R], 2), 2) ((w, 1), 3)
                       ((w ++ [R], 0), 0) ((w, 2), 1)
    else None
  end end end.

Definition base_label : label := ([], 0).

Section Shape.
Context {F : Type} `{ExactField F}.
Variables (w_ r_ h1 h2 : F).

(** [polygon] has the parameters [self] and [lab] and assigns nothing,
    so the name [w] of its [return] is looked up in the module. *)
Definition polygon (lab : label) : result (Polygon F) :=
  match module_globals !! "w" with
  | None => Raise (NameError "w")
  | Some (VWord w) =>
      c ← checked_div (of_Z 1) (fpow r_ (length w));
      b ← base_polygon w_ r_ h1 h2 lab.2;
      Ok (scale c b)
  | Some _ => Raise (AttributeError "length")
  end.

End Shape.

End TopLevelCopy.

(** ** Chamanara's surface *)

Module Chamanara.

Section Polygon.
Context {F : Type} `{ExactField F}.
(** The polygon type and the constructor [polygons(e0, e1, e2, e3)] of
    [flatsurf.geometry.polygon], which is free to reject its input. *)
Context {P : Type} (polygons : list (F * F) -> result P).

(** [in_Fields] is the outcome of [field in Fields()] for the parent of
    [alpha].  The two [ValueError(...)] statements build an exception
    and drop it: there is no [raise]. *)
Definition ChamanaraPolygon (in_Fields : bool) (alpha : F) : result P :=
  let _ := if negb in_Fields
           then Some (ValueError "The value of alpha must lie in a field.")
           else None in
  let _ := if fleb alpha (of_Z 0) || fleb (of_Z 1) alpha
           then Some (ValueError
                        "The value of alpha must be between zero and one.")
           else None in
  x ← checked_div (of_Z 1) (of_Z 1 - alpha)%F;
  polygons [ (of_Z 1, of_Z 0); ((- x)%F, x); (of_Z 0, of_Z (-1));
             ((x - of_Z 1)%F, (of_Z 1 - x)%F) ].

(** The state [__init__] sets up: [self._p]. *)
Record ChamanaraSurface : Type := { _p : P }.

Definition init (in_Fields : bool) (alpha : F) : result ChamanaraSurface :=
  p ← ChamanaraPolygon in_Fields alpha;
  Ok {| _p := p |}.

Definition polygon (self : ChamanaraSurface) (lab : Z) : P := _p self.

End Polygon.

Definition polygon_labels (lab : Z) : bool := true.

Definition is_finite : bool := false.

Definition base_label : Z := 0.

Definition opposite_edge (p e : Z) : Z * Z :=
  if decide (e = 0 ∨ e = 2) then (1 - p, e)
  else if decide (e = 1) then
    if decide (p < 0) then (p + 1, 3)
    else if decide (p > 1) then (p - 1, 3)
    else (1 - p, 1)
  else
    if decide (p <= 0) then (p - 1, 1)
    else (p + 1, 1).

End Chamanara.

(** ** The surfaces behind one interface *)

(** The part of a surface the gluing claims need: which labels exist and
    where an edge is glued. *)
Record Gluing (Label : Type) : Type := {
  in_labels : Label -> bool;
  glue : Label -> Z -> result (Label * Z)
}.
Arguments in_labels {Label} _ _.
Arguments glue {Label} _ _ _.

Definition staircase_gluing : Gluing Z :=
  {| in_labels := InfiniteStaircase.polygon_labels;
     glue p e := Ok (InfiniteStaircase.opposite_edge p e) |}.

Definition einfinity_gluing : Gluing Z :=
  {| in_labels := EInfinity.polygon_labels;
     glue p e := Ok (EInfinity.opposite_edge p e) |}.

Definition tfractal_gluing : Gluing TFractal.label :=
  {| in_labels := TFractal.polygon_labels;
     glue := TFractal.opposite_edge |}.

Definition chamanara_gluing : Gluing Z :=
  {| in_labels := Chamanara.polygon_labels;
     glue p e := Ok (Chamanara.opposite_edge p e) |}.

(** All polygons of the four families have four sides. *)
Definition valid_edge (e : Z) : Prop := e = 0 ∨ e = 1 ∨ e = 2 ∨ e = 3.

(** [S] pairs the edges of its polygons without fixed point. *)
Definition fixed_point_free_involution {Label} (S : Gluing Label) : Prop :=
  ∀ p e, in_labels S p = true → valid_edge e →
    ∃ p' e', glue S p e = Ok (p', e') ∧
             in_labels S p' = true ∧ valid_edge e' ∧
             glue S p' e' = Ok (p, e) ∧
             (p', e') ≠ (p, e).

(** A gluing that refuses every edge outside [{0,1,2,3}]. *)
Definition rejects_invalid_edges {Label} (S : Gluing Label) : Prop :=
  ∀ p e, in_labels S p = true → ¬ valid_edge e →
    ∃ err, glue S p e = Raise err.

(** ** The generators *)

Module Generators.

(** [range(n)] *)
Definition range (n : Z) : list Z := map Z.of_nat (seq 0 (Z.to_nat n)).

(** A dict comprehension: the items are stored in iteration order, a later
    item replacing an earlier one with the same key. *)
Definition dict_of_items {K V} `{Countable K} (items : list (K * V))
  : gmap K V :=
  foldl (fun d kv => <[kv.1 := kv.2]> d) ∅ items.

(** [d.update(d')]: the items of [d'] win. *)
Definition update {K V} `{Countable K} (d d' : gmap K V) : gmap K V := d' ∪ d.

(** The gluing table [billard(P)] hands to the surface constructor;
    [n] is [P.num_edges()]. *)
Definition billard_glue (n : Z) : gmap (Z * Z) (Z * Z) :=
  let glue := dict_of_items (map (fun i => ((0, i), (1, n - i - 1))) (range n)) in
  update glue
    (dict_of_items (map (fun i => ((1, i), (0, n - i - 1))) (range n))).

(** The four maps [infinite_staircase2] hands to [Origami]. *)
Definition infinite_staircase2_r (x : Z) : Z :=
  if decide (x `mod` 2 ≠ 0) then x + 1 else x - 1.
Definition infinite_staircase2_u (x : Z) : Z :=
  if decide (x `mod` 2 ≠ 0) then x - 1 else x + 1.
Definition infinite_staircase2_rr (x : Z) : Z :=
  if decide (x `mod` 2 ≠ 0) then x + 1 else x - 1.
Definition infinite_staircase2_uu (x : Z) : Z :=
  if decide (x `mod` 2 ≠ 0) then x - 1 else x + 1.

(** The list [adjacencies] of [chamanara_half_dilation_surface(alpha, n)]
    when it is handed to [graphical_surface]. *)
Definition half_dilation_adjacencies (n : Z) : list (Z * Z) :=
  foldl (fun adjacencies i => adjacencies ++ [(- i, 3); (i + 1, 3)])
        [(0, 1)] (range n).

End Generators.

(** ** Notions used to state the properties *)

(** The [e]-th edge vector of a polygon. *)
Definition edge_vector {F} (P : Polygon F) (e : Z) : option (F * F) :=
  P !! Z.to_nat e.

(** The rectangle of the E-infinity surface reached from [p] across its
    edge [e]. *)
Definition einfinity_across (e p : Z) : Z := (EInfinity.opposite_edge p e).1.

(** Every key of the two caches is at most [M] in absolute value. *)
Definition cache_keys_within {F} (M : Z) (st : @EInfinity.caches F) : Prop :=
  ∀ k, is_Some (EInfinity.white_cache st !! k) ∨
       is_Some (EInfinity.black_cache st !! k) → Z.abs k <= M.

(** The polygons the adjacencies of Chamanara's surface lead to. *)
Definition adjacent_labels (n : Z) : list Z :=
  map (fun pe => (Chamanara.opposite_edge pe.1 pe.2).1)
      (Generators.half_dilation_adjacencies n).

(** * Properties *)

(** ** Helpers *)

Lemma valid_edge_mod4 e : valid_edge ((e + 2) `mod` 4).
Proof.
  unfold valid_edge. pose proof (Z.mod_pos_bound (e + 2) 4). lia.
Qed.

(** Goals about [mod] by a constant. *)
Ltac zmod := Z.to_euclidean_division_equations; lia.

(** A valid edge is one of four numbers; split on which. *)
Ltac edge_cases He :=
  destruct He as [-> | [-> | [-> | ->]]].

Lemma ascend_nil loop : TFractal.ascend [] loop = ([], loop).
Proof. reflexivity. Qed.

Lemma ascend_snoc w x loop :
  TFractal.ascend (w ++ [x]) loop =
  (w, match x with TFractal.L => 1 | TFractal.R => 3 end).
Proof.
  unfold TFractal.ascend. rewrite last_snoc, removelast_last.
  by destruct x.
Qed.

Lemma word_nil_or_snoc (w : TFractal.word) :
  w = [] ∨ ∃ w' x, w = w' ++ [x].
Proof.
  destruct w as [|a w] using rev_ind; [by left | right; eauto].
Qed.

(** ** The infinite staircase *)

(** C8: on the infinite staircase the edge [e] of the square [p] is glued to
    the edge [(e+2) mod 4] of the square [p+1] when [p+e] is odd and of the
    square [p-1] when [p+e] is even; so [(0,0)] goes to [(-1,2)] and [(0,1)]
    to [(1,3)]. *)
Theorem staircase_parity_rule :
  (∀ p e, valid_edge e →
     (Z.odd (p + e) = true →
        InfiniteStaircase.opposite_edge p e = (p + 1, (e + 2) `mod` 4)) ∧
     (Z.even (p + e) = true →
        InfiniteStaircase.opposite_edge p e = (p - 1, (e + 2) `mod` 4))) ∧
  InfiniteStaircase.opposite_edge 0 0 = (-1, 2) ∧
  InfiniteStaircase.opposite_edge 0 1 = (1, 3).
Proof.
  split; [|done].
  intros p e _. unfold InfiniteStaircase.opposite_edge.
  rewrite Zodd_mod, Zeven_mod.
  pose proof (Z.mod_pos_bound (p + e) 2).
  split; intros Hpar; case_decide; try done.
  - apply Z.eqb_eq in Hpar. lia.
  - apply Z.eqb_eq in Hpar. lia.
Qed.

Lemma staircase_parity_rule_witness :
  valid_edge 3 ∧ Z.odd (4 + 3) = true ∧
  InfiniteStaircase.opposite_edge 4 3 = (5, 1).
Proof.
  split; [unfold valid_edge; lia|]. split; [reflexivity|].
  apply (proj1 (proj1 staircase_parity_rule 4 3 ltac:(unfold valid_edge; lia))).
  reflexivity.
Defined.

(** ** Chamanara's surface *)

(** C6: the gluing of Chamanara's surface.  Edges 0 and 2 go to the same
    edge of [1-p]; edge 1 goes to edge 3 of [p+1] for [p<0], of [p-1] for
    [p>1], and to edge 1 of [1-p] for [p] in [{0,1}]; edge 3 goes to edge 1
    of [p-1] for [p<=0] and of [p+1] for [p>=1]. *)
Theorem chamanara_case_table (p : Z) :
  Chamanara.opposite_edge p 0 = (1 - p, 0) ∧
  Chamanara.opposite_edge p 2 = (1 - p, 2) ∧
  (p < 0 → Chamanara.opposite_edge p 1 = (p + 1, 3)) ∧
  (p > 1 → Chamanara.opposite_edge p 1 = (p - 1, 3)) ∧
  (p = 0 ∨ p = 1 → Chamanara.opposite_edge p 1 = (1 - p, 1)) ∧
  (p <= 0 → Chamanara.opposite_edge p 3 = (p - 1, 1)) ∧
  (p >= 1 → Chamanara.opposite_edge p 3 = (p + 1, 1)) ∧
  Chamanara.opposite_edge 0 1 = (1, 1) ∧
  Chamanara.opposite_edge 1 1 = (0, 1).
Proof.
  unfold Chamanara.opposite_edge.
  repeat split; try intros Hp; repeat case_decide; try done; lia.
Qed.

Lemma chamanara_case_table_witness :
  Chamanara.opposite_edge (-3) 1 = (-2, 3) ∧
  Chamanara.opposite_edge 5 1 = (4, 3) ∧
  Chamanara.opposite_edge 1 1 = (0, 1) ∧
  Chamanara.opposite_edge (-3) 3 = (-4, 1) ∧
  Chamanara.opposite_edge 5 3 = (6, 1).
Proof.
  pose proof (chamanara_case_table (-3)) as (_ & _ & Hneg & _ & _ & Hle & _).
  pose proof (chamanara_case_table 5) as (_ & _ & _ & Hgt & _ & _ & Hge & _).
  pose proof (chamanara_case_table 1) as (_ & _ & _ & _ & Hmid & _).
  split; [apply Hneg; lia|]. split; [apply Hgt; lia|].
  split; [apply Hmid; lia|]. split; [apply Hle; lia | apply Hge; lia].
Defined.

(** ** The E-infinity surface: gluing *)

(** The special labels are exactly [-1, 0, 1, 2]: elsewhere no table entry
    is reached. *)
Lemma special_labels_none p e :
  p ≠ 0 → p ≠ 1 → p ≠ -1 → p ≠ 2 → EInfinity.special_labels p e = None.
Proof.
  intros. unfold EInfinity.special_labels. by repeat case_decide.
Qed.

Lemma einfinity_general_rule p e :
  p ≠ 0 → p ≠ 1 → p ≠ -1 → p ≠ 2 →
  EInfinity.opposite_edge p e =
  if decide (e `mod` 2 ≠ 0) then (- p, (e + 2) `mod` 4)
  else (1 - p, (e + 2) `mod` 4).
Proof.
  intros. unfold EInfinity.opposite_edge.
  rewrite special_labels_none by done. by repeat case_decide.
Qed.

(** C3, as amended: for [|p| > 2] an odd edge [e] of the rectangle [p] is
    glued to the edge [(e+2) mod 4] of the rectangle [-p]; the label is
    negated, not kept. *)
Theorem einfinity_odd_edge_negates_label (p e : Z) :
  Z.abs p > 2 → e = 1 ∨ e = 3 →
  EInfinity.opposite_edge p e = (- p, (e + 2) `mod` 4).
Proof.
  intros Hp He. rewrite einfinity_general_rule by lia.
  by destruct He as [-> | ->].
Qed.

Lemma einfinity_odd_edge_negates_label_witness :
  Z.abs 5 > 2 ∧ EInfinity.opposite_edge 5 3 = (-5, 1).
Proof.
  split; [lia|].
  apply (einfinity_odd_edge_negates_label 5 3); lia.
Defined.

(** C3 as stated fails: the odd edge 1 of the rectangle 3 is glued to the
    rectangle -3, so the label is not kept. *)
Lemma einfinity_odd_edge_keeps_label_fails :
  ¬ (∀ p e, Z.abs p > 2 → e = 1 ∨ e = 3 →
       EInfinity.opposite_edge p e = (p, (e + 2) `mod` 4)).
Proof.
  intros Hclaim. specialize (Hclaim 3 1 ltac:(lia) ltac:(lia)).
  discriminate Hclaim.
Qed.

(** ** Fixed-point-free involutions *)

Lemma staircase_involution : fixed_point_free_involution staircase_gluing.
Proof.
  intros p e _ He. simpl.
  exists (InfiniteStaircase.opposite_edge p e).1,
         (InfiniteStaircase.opposite_edge p e).2.
  rewrite <- surjective_pairing.
  split; [done|]. split; [done|].
  split; [unfold InfiniteStaircase.opposite_edge; case_decide;
          apply valid_edge_mod4|].
  unfold InfiniteStaircase.opposite_edge.
  edge_cases He; repeat case_decide; simpl in *;
    first [ by exfalso; zmod
          | split; [f_equal; f_equal; zmod | intros [=]; zmod] ].
Qed.

Lemma chamanara_involution : fixed_point_free_involution chamanara_gluing.
Proof.
  intros p e _ He. simpl.
  exists (Chamanara.opposite_edge p e).1, (Chamanara.opposite_edge p e).2.
  rewrite <- surjective_pairing.
  split; [done|]. split; [done|].
  unfold Chamanara.opposite_edge.
  edge_cases He; repeat case_decide; simpl in *; try lia;
    (split; [unfold valid_edge; lia|]);
    (split; [f_equal; f_equal; lia | intros [=]; lia]).
Qed.

Lemma einfinity_involution : fixed_point_free_involution einfinity_gluing.
Proof.
  intros p e _ He. simpl.
  exists (EInfinity.opposite_edge p e).1, (EInfinity.opposite_edge p e).2.
  rewrite <- surjective_pairing.
  split; [done|]. split; [done|].
  destruct (decide (p = 0 ∨ p = 1 ∨ p = -1 ∨ p = 2 ∨ p = -2)) as [Hp | Hp].
  - destruct Hp as [-> | [-> | [-> | [-> | ->]]]];
      edge_cases He; vm_compute; repeat split; (try lia); by intros [=].
  - split; [rewrite einfinity_general_rule by lia; case_decide;
            apply valid_edge_mod4|].
    edge_cases He; rewrite (einfinity_general_rule p) by lia; 
      repeat case_decide; try (by exfalso; zmod); simpl;
      (rewrite einfinity_general_rule by lia); 
      repeat case_decide; try (by exfalso; zmod); simpl;
      (split; [f_equal; f_equal; zmod | intros [=]; zmod]).
Qed.

Lemma tfractal_ascend_back (w : TFractal.word) (loop f : Z) :
  (loop = 0 ∧ f = 2) ∨ (loop = 2 ∧ f = 0) →
  TFractal.polygon_labels (TFractal.ascend w loop) = true ∧
  TFractal.opposite_edge (TFractal.ascend w loop) loop = Ok ((w, f), f).
Proof.
  intros Hl.
  destruct (word_nil_or_snoc w) as [-> | (w' & x & ->)].
  - rewrite ascend_nil. by destruct Hl as [[-> ->] | [-> ->]].
  - rewrite ascend_snoc. by destruct Hl as [[-> ->] | [-> ->]]; destruct x.
Qed.

Lemma tfractal_involution : fixed_point_free_involution tfractal_gluing.
Proof.
  intros [w i] e Hi He. simpl in *.
  unfold TFractal.polygon_labels in Hi. apply bool_decide_eq_true in Hi.
  simpl in Hi.
  destruct (tfractal_ascend_back w 0 2) as [Hl0 Hb0]; [lia|].
  destruct (tfractal_ascend_back w 2 0) as [Hl2 Hb2]; [lia|].
  destruct Hi as [-> | [-> | [-> | ->]]]; edge_cases He;
    unfold TFractal.opposite_edge at 1; simpl;
    (eexists _, _; split; [reflexivity|]);
    (split; [done|]);
    (split; [unfold valid_edge; lia|]);
    (split; [| by intros [=]]);
    first [ done
          | by unfold TFractal.opposite_edge; simpl; rewrite ascend_snoc ].
Qed.

(** C1: each of the four gluings is an involution without fixed point on
    the pairs of a label of its label space and an edge in [{0,1,2,3}];
    the image is again such a pair. *)
Theorem gluings_are_fixed_point_free_involutions :
  fixed_point_free_involution staircase_gluing ∧
  fixed_point_free_involution einfinity_gluing ∧
  fixed_point_free_involution tfractal_gluing ∧
  fixed_point_free_involution chamanara_gluing.
Proof.
  split; [apply staircase_involution|].
  split; [apply einfinity_involution|].
  split; [apply tfractal_involution | apply chamanara_involution].
Qed.

(** ** Edges out of range *)

(** C7, as amended: the T-fractal refuses an edge outside [{0,1,2,3}] with
    the [ValueError] of its edge check, whatever the label. *)
Theorem tfractal_rejects_invalid_edge (p : TFractal.label) (e : Z) :
  ¬ valid_edge e →
  TFractal.opposite_edge p e =
  Raise (ValueError "e (={!r}) must be either 0,1,2 or 3").
Proof.
  intros He. destruct p as [w i]. unfold TFractal.opposite_edge.
  unfold valid_edge in He. by repeat case_decide; try lia.
Qed.

Lemma tfractal_rejects_invalid_edge_witness :
  ¬ valid_edge 4 ∧
  TFractal.opposite_edge ([TFractal.L], 1) 4 =
  Raise (ValueError "e (={!r}) must be either 0,1,2 or 3").
Proof.
  assert (H4 : ¬ valid_edge 4) by (unfold valid_edge; lia).
  split; [exact H4|].
  exact (tfractal_rejects_invalid_edge ([TFractal.L], 1) 4 H4).
Defined.

(** C7 as stated fails: the staircase, the E-infinity surface and
    Chamanara's surface glue the edge 4 of the label 0 to some edge instead
    of refusing it. *)
Lemma edge_check_missing :
  glue staircase_gluing 0 4 = Ok (-1, 2) ∧
  glue einfinity_gluing 0 4 = Ok (1, 2) ∧
  glue chamanara_gluing 0 4 = Ok (-1, 1) ∧
  ¬ rejects_invalid_edges staircase_gluing ∧
  ¬ rejects_invalid_edges einfinity_gluing ∧
  ¬ rejects_invalid_edges chamanara_gluing ∧
  ¬ (rejects_invalid_edges staircase_gluing ∧
     rejects_invalid_edges einfinity_gluing ∧
     rejects_invalid_edges tfractal_gluing ∧
     rejects_invalid_edges chamanara_gluing).
Proof.
  assert (H4 : ¬ valid_edge 4) by (unfold valid_edge; lia).
  assert (Hs : ¬ rejects_invalid_edges staircase_gluing).
  { intros Hr. by destruct (Hr 0 4 eq_refl H4) as [err [=]]. }
  assert (He : ¬ rejects_invalid_edges einfinity_gluing).
  { intros Hr. by destruct (Hr 0 4 eq_refl H4) as [err [=]]. }
  assert (Hc : ¬ rejects_invalid_edges chamanara_gluing).
  { intros Hr. by destruct (Hr 0 4 eq_refl H4) as [err [=]]. }
  repeat split; try done. by intros [Hr _].
Qed.

(** ** The T-fractal: going up the tree *)

(** C5: the bottom edge of the tag-0 box and the top edge of the tag-2 box
    of a word [w].  For the empty word they are glued to each other's box
    ([(w,2)] resp. [(w,0)]); for [w = w' L] to the box [(w',1)] and for
    [w = w' R] to the box [(w',3)]; the edge returned is [(e+2) mod 4].
    Every word is of one of the three forms. *)
Theorem tfractal_ascent :
  TFractal.opposite_edge ([], 0) 0 = Ok (([], 2), (0 + 2) `mod` 4) ∧
  TFractal.opposite_edge ([], 2) 2 = Ok (([], 0), (2 + 2) `mod` 4) ∧
  (∀ w,
     TFractal.opposite_edge (w ++ [TFractal.L], 0) 0 = Ok ((w, 1), 2) ∧
     TFractal.opposite_edge (w ++ [TFractal.R], 0) 0 = Ok ((w, 3), 2) ∧
     TFractal.opposite_edge (w ++ [TFractal.L], 2) 2 = Ok ((w, 1), 0) ∧
     TFractal.opposite_edge (w ++ [TFractal.R], 2) 2 = Ok ((w, 3), 0)) ∧
  (∀ w : TFractal.word,
     w = [] ∨ ∃ w', w = w' ++ [TFractal.L] ∨ w = w' ++ [TFractal.R]).
Proof.
  split; [done|]. split; [done|]. split.
  - intros w. unfold TFractal.opposite_edge. simpl.
    by rewrite !ascend_snoc.
  - intros w. destruct (word_nil_or_snoc w) as [-> | (w' & [ | ] & ->)]; eauto.
Qed.

(** ** The E-infinity surface: weights *)

Section WeightFacts.
Context {F : Type} `{ExactField F} (l : F).
Import EInfinity.

(** The [if] cascade of [get_white], as one equation. *)
Lemma get_white_unfold n :
  get_white l n =
  if decide (n = 0 ∨ n = 1) then l
  else if decide (n = -1) then (l - of_Z 1)%F
  else if decide (n = 2) then (of_Z 1 - of_Z 3 * l + fpow l 2)%F
  else if decide (n > 2) then (l * get_black l n - get_white l (n - 1))%F
  else get_white l (- n).
Proof.
  unfold get_white, get_black. simp weight.
  destruct (decide (n = 0 ∨ n = 1)); simp weight; [done|].
  destruct (decide (n = -1)); simp weight; [done|].
  destruct (decide (n = 2)); simp weight; [done|].
  destruct (decide (n > 2)); simp weight; done.
Qed.

Lemma get_black_unfold n :
  get_black l n =
  if decide (n = 0) then of_Z 1
  else if decide (n = 1 ∨ n = -1 ∨ n = 2) then (l - of_Z 1)%F
  else if decide (n > 2) then (get_white l (n - 1) - get_black l (n - 1))%F
  else get_black l (1 - n).
Proof.
  unfold get_white, get_black. simp weight.
  destruct (decide (n = 0)); simp weight; [done|].
  destruct (decide (n = 1 ∨ n = -1 ∨ n = 2)); simp weight; [done|].
  destruct (decide (n > 2)); simp weight; done.
Qed.
End WeightFacts.

(** C4: the weights of the E-infinity surface obey the recurrences
    [W(0)=W(1)=l], [W(-1)=l-1], [W(2)=1-3l+l^2], [W(n)=l*B(n)-W(n-1)] for
    [n>2], [W(n)=W(-n)] for [n<-1], and [B(0)=1], [B(1)=B(-1)=B(2)=l-1],
    [B(n)=W(n-1)-B(n-1)] for [n>2], [B(n)=B(1-n)] for [n<0], [n≠-1]. *)
Theorem einfinity_weights_recurrence {F : Type} `{ExactField F} (l : F) :
  EInfinity.get_white l 0 = l ∧
  EInfinity.get_white l 1 = l ∧
  EInfinity.get_white l (-1) = (l - of_Z 1)%F ∧
  EInfinity.get_white l 2 = (of_Z 1 - of_Z 3 * l + fpow l 2)%F ∧
  (∀ n, n > 2 →
     EInfinity.get_white l n =
     (l * EInfinity.get_black l n - EInfinity.get_white l (n - 1))%F) ∧
  (∀ n, n < -1 → EInfinity.get_white l n = EInfinity.get_white l (- n)) ∧
  EInfinity.get_black l 0 = of_Z 1 ∧
  EInfinity.get_black l 1 = (l - of_Z 1)%F ∧
  EInfinity.get_black l (-1) = (l - of_Z 1)%F ∧
  EInfinity.get_black l 2 = (l - of_Z 1)%F ∧
  (∀ n, n > 2 →
     EInfinity.get_black l n =
     (EInfinity.get_white l (n - 1) - EInfinity.get_black l (n - 1))%F) ∧
  (∀ n, n < 0 → n ≠ -1 →
     EInfinity.get_black l n = EInfinity.get_black l (1 - n)).
Proof.
  assert (Hwhite : ∀ n, EInfinity.get_white l n = _) by apply get_white_unfold.
  assert (Hblack : ∀ n, EInfinity.get_black l n = _) by apply get_black_unfold.
  split_and!; try intros n Hn; try intros Hn'.
  1-6: rewrite Hwhite at 1; repeat case_decide; try done; lia.
  all: rewrite Hblack at 1; repeat case_decide; try done; lia.
Qed.

Lemma einfinity_weights_recurrence_witness :
  EInfinity.get_white (F:=Q) (4 # 1) 3 = (3 # 1)%Q ∧
  EInfinity.get_white (F:=Q) (4 # 1) (-3) = (3 # 1)%Q ∧
  EInfinity.get_black (F:=Q) (4 # 1) 3 = (2 # 1)%Q ∧
  EInfinity.get_black (F:=Q) (4 # 1) (-2) = (2 # 1)%Q.
Proof.
  pose proof (einfinity_weights_recurrence (F:=Q) (4 # 1))
    as (_ & _ & _ & _ & Hw & Hwneg & _ & _ & _ & _ & Hb & Hbneg).
  split; [rewrite (Hw 3) by lia; vm_compute; reflexivity|].
  split; [rewrite (Hwneg (-3)) by lia; vm_compute; reflexivity|].
  split; [rewrite (Hb 3) by lia; vm_compute; reflexivity|].
  rewrite (Hbneg (-2)) by lia; vm_compute; reflexivity.
Defined.

Section RunFacts.
Context {F : Type} `{ExactField F} (l : F).
Import EInfinity.

(** With a call depth above the distance, a call returns, whatever the
    caches hold. *)
Lemma run_returns (d : nat) :
  (∀ n st, (dist White n < d)%nat → is_Some (run_white l d n st)) ∧
  (∀ n st, (dist Black n < d)%nat → is_Some (run_black l d n st)).
Proof.
  induction d as [|d [IHw IHb]]; [split; intros; lia|].
  split; intros n st Hd; simpl.
  - destruct (white_cache st !! n); [done|].
    repeat case_decide; try done.
    + destruct (IHw (n - 1) st) as [[x st1] ->];
        [unfold dist in *; repeat case_decide; lia|].
      simpl. destruct (IHb n st1) as [[y st2] ->];
        [unfold dist in *; repeat case_decide; lia|].
      done.
    + destruct (IHw (- n) st) as [[x st1] ->];
        [unfold dist in *; repeat case_decide; lia|].
      done.
  - destruct (black_cache st !! n); [done|].
    repeat case_decide; try done.
    + destruct (IHb (n - 1) st) as [[x st1] ->];
        [unfold dist in *; repeat case_decide; lia|].
      simpl. destruct (IHw (n - 1) st1) as [[y st2] ->];
        [unfold dist in *; repeat case_decide; lia|].
      done.
    + destruct (IHb (1 - n) st) as [[x st1] ->];
        [unfold dist in *; repeat case_decide; lia|].
      done.
Qed.

Lemma caches_le_refl (st : @caches F) : caches_le st st.
Proof. by split. Qed.

Lemma caches_le_trans (st1 st2 st3 : @caches F) :
  caches_le st1 st2 → caches_le st2 st3 → caches_le st1 st3.
Proof. intros [? ?] [? ?]. split; by etrans. Qed.

Lemma store_white_sound n st :
  caches_sound l st → caches_sound l (store_white n (get_white l n) st).
Proof.
  intros [Hw Hb]. split; [|done]. intros m v. simpl.
  destruct (decide (n = m)) as [-> | Hne].
  - rewrite lookup_insert_eq. by intros [= <-].
  - rewrite lookup_insert_ne by done. apply Hw.
Qed.

Lemma store_black_sound n st :
  caches_sound l st → caches_sound l (store_black n (get_black l n) st).
Proof.
  intros [Hw Hb]. split; [done|]. intros m v. simpl.
  destruct (decide (n = m)) as [-> | Hne].
  - rewrite lookup_insert_eq. by intros [= <-].
  - rewrite lookup_insert_ne by done. apply Hb.
Qed.

Lemma store_white_le n st :
  caches_sound l st → caches_le st (store_white n (get_white l n) st).
Proof.
  intros [Hw _]. split; [|done]. simpl.
  destruct (white_cache st !! n) as [v|] eqn:Hn.
  - rewrite (Hw _ _ Hn) in Hn. by rewrite insert_id.
  - by apply insert_subseteq.
Qed.

Lemma store_black_le n st :
  caches_sound l st → caches_le st (store_black n (get_black l n) st).
Proof.
  intros [_ Hb]. split; [done|]. simpl.
  destruct (black_cache st !! n) as [v|] eqn:Hn.
  - rewrite (Hb _ _ Hn) in Hn. by rewrite insert_id.
  - by apply insert_subseteq.
Qed.

(** What a miss does once the body has returned [v]: store and return. *)
Lemma white_miss_sound n st st1 v :
  v = get_white l n → caches_sound l st1 → caches_le st st1 →
  v = get_white l n ∧ caches_sound l (store_white n v st1) ∧
  caches_le st (store_white n v st1).
Proof.
  intros -> Hs Hle. split; [done|]. split; [by apply store_white_sound|].
  eapply caches_le_trans; [done | by apply store_white_le].
Qed.

Lemma black_miss_sound n st st1 v :
  v = get_black l n → caches_sound l st1 → caches_le st st1 →
  v = get_black l n ∧ caches_sound l (store_black n v st1) ∧
  caches_le st (store_black n v st1).
Proof.
  intros -> Hs Hle. split; [done|]. split; [by apply store_black_sound|].
  eapply caches_le_trans; [done | by apply store_black_le].
Qed.

(** A call that returns gives the weight, and leaves caches that are
    still sound and contain the old ones. *)
Lemma run_sound (d : nat) :
  (∀ n st v st', caches_sound l st → run_white l d n st = Some (v, st') →
     v = get_white l n ∧ caches_sound l st' ∧ caches_le st st') ∧
  (∀ n st v st', caches_sound l st → run_black l d n st = Some (v, st') →
     v = get_black l n ∧ caches_sound l st' ∧ caches_le st st').
Proof.
  induction d as [|d [IHw IHb]]; [split; intros; discriminate|].
  split; intros n st v st' Hst; simpl.
  - destruct (white_cache st !! n) as [v0|] eqn:Hc.
    { intros [= <- <-]. split; [by apply Hst|]. by split. }
    pose proof (get_white_unfold l n) as Hv.
    repeat case_decide.
    1-3: intros [= <- <-];
         by apply white_miss_sound; [|done|apply caches_le_refl].
    + destruct (run_white l d (n - 1) st) as [[x st1]|] eqn:E1; [|done].
      simpl. destruct (run_black l d n st1) as [[y st2]|] eqn:E2; [|done].
      simpl. intros [= <- <-].
      destruct (IHw _ _ _ _ Hst E1) as (-> & Hs1 & Hle1).
      destruct (IHb _ _ _ _ Hs1 E2) as (-> & Hs2 & Hle2).
      apply white_miss_sound; [done|done|by eapply caches_le_trans].
    + destruct (run_white l d (- n) st) as [[x st1]|] eqn:E1; [|done].
      simpl. intros [= <- <-].
      destruct (IHw _ _ _ _ Hst E1) as (-> & Hs1 & Hle1).
      by apply white_miss_sound.
  - destruct (black_cache st !! n) as [v0|] eqn:Hc.
    { intros [= <- <-]. split; [by apply Hst|]. by split. }
    pose proof (get_black_unfold l n) as Hv.
    repeat case_decide.
    1-2: intros [= <- <-];
         by apply black_miss_sound; [|done|apply caches_le_refl].
    + destruct (run_black l d (n - 1) st) as [[x st1]|] eqn:E1; [|done].
      simpl. destruct (run_white l d (n - 1) st1) as [[y st2]|] eqn:E2;
        [|done].
      simpl. intros [= <- <-].
      destruct (IHb _ _ _ _ Hst E1) as (-> & Hs1 & Hle1).
      destruct (IHw _ _ _ _ Hs1 E2) as (-> & Hs2 & Hle2).
      apply black_miss_sound; [done|done|by eapply caches_le_trans].
    + destruct (run_black l d (1 - n) st) as [[x st1]|] eqn:E1; [|done].
      simpl. intros [= <- <-].
      destruct (IHb _ _ _ _ Hst E1) as (-> & Hs1 & Hle1).
      by apply black_miss_sound.
Qed.

Lemma empty_caches_sound : caches_sound l empty_caches.
Proof. split; intros n v; simpl; by rewrite lookup_empty. Qed.
End RunFacts.

(** C9: [get_white] and [get_black] terminate.  A call of either method
    returns as soon as the call depth allowed exceeds the distance [dist] of
    the call, whatever the caches hold; and every call the two bodies make
    has a smaller distance: above 2 a call goes to [n-1] or to the other
    method at [n] or [n-1], a negative index is reflected to a positive one
    in one step. *)
Theorem einfinity_weights_terminate {F : Type} `{ExactField F} (l : F) :
  (∀ n k st,
     is_Some (EInfinity.run_white l (S (EInfinity.dist EInfinity.White n) + k) n st) ∧
     is_Some (EInfinity.run_black l (S (EInfinity.dist EInfinity.Black n) + k) n st)) ∧
  (∀ n, n > 2 →
     (EInfinity.dist EInfinity.White (n - 1) < EInfinity.dist EInfinity.White n)%nat ∧
     (EInfinity.dist EInfinity.Black n < EInfinity.dist EInfinity.White n)%nat ∧
     (EInfinity.dist EInfinity.Black (n - 1) < EInfinity.dist EInfinity.Black n)%nat ∧
     (EInfinity.dist EInfinity.White (n - 1) < EInfinity.dist EInfinity.Black n)%nat) ∧
  (∀ n, n < -1 →
     0 < - n ∧
     (EInfinity.dist EInfinity.White (- n) < EInfinity.dist EInfinity.White n)%nat) ∧
  (∀ n, n < 0 → n ≠ -1 →
     0 < 1 - n ∧
     (EInfinity.dist EInfinity.Black (1 - n) < EInfinity.dist EInfinity.Black n)%nat).
Proof.
  split_and!.
  - intros n k st. split; apply run_returns; lia.
  - intros n Hn. unfold EInfinity.dist. repeat case_decide; lia.
  - intros n Hn. unfold EInfinity.dist. repeat case_decide; lia.
  - intros n Hn Hn'. unfold EInfinity.dist. repeat case_decide; lia.
Qed.

Lemma einfinity_weights_terminate_witness :
  (EInfinity.dist EInfinity.Black 5 < EInfinity.dist EInfinity.White 5)%nat ∧
  (EInfinity.dist EInfinity.White 7 < EInfinity.dist EInfinity.White (-7))%nat ∧
  (EInfinity.dist EInfinity.Black 8 < EInfinity.dist EInfinity.Black (-7))%nat ∧
  is_Some (EInfinity.run_white (F:=Q) (4 # 1)
             (S (EInfinity.dist EInfinity.White (-7)) + 0) (-7)
             EInfinity.empty_caches).
Proof.
  pose proof (einfinity_weights_terminate (F:=Q) (4 # 1))
    as (Hrun & Hpos & Hwneg & Hbneg).
  split; [exact (proj1 (proj2 (Hpos 5 ltac:(lia))))|].
  split; [exact (proj2 (Hwneg (-7) ltac:(lia)))|].
  split; [exact (proj2 (Hbneg (-7) ltac:(lia) ltac:(lia)))|].
  exact (proj1 (Hrun (-7) 0%nat EInfinity.empty_caches)).
Defined.

(** ** Chamanara's polygon *)

(** C2, at parameters outside the domain: the two guards of
    [ChamanaraPolygon] raise nothing.  For [alpha = 2] and [alpha = 0] in a
    field, and for [alpha = 1/2] in a parent that is no field, the call goes
    on to the polygon constructor; for [alpha = 1] it stops in the division
    by [1 - alpha]. *)
Theorem chamanara_polygon_guards_raise_nothing
    {P : Type} (polygons : list (Q * Q) → result P) :
  Chamanara.ChamanaraPolygon polygons true (2 # 1) =
    polygons [(1 # 1, 0 # 1); (1 # 1, -1 # 1); (0 # 1, -1 # 1); (-2 # 1, 2 # 1)]%Q ∧
  Chamanara.ChamanaraPolygon polygons true (0 # 1) =
    polygons [(1 # 1, 0 # 1); (-1 # 1, 1 # 1); (0 # 1, -1 # 1); (0 # 1, 0 # 1)]%Q ∧
  Chamanara.ChamanaraPolygon polygons true (1 # 1) = Raise ZeroDivisionError ∧
  Chamanara.ChamanaraPolygon polygons false (1 # 2) =
    polygons [(1 # 1, 0 # 1); (-2 # 1, 2 # 1); (0 # 1, -1 # 1); (1 # 1, -1 # 1)]%Q.
Proof. split_and!; reflexivity. Qed.

(** ** The polygon of a T-fractal label, in the two copies *)

(** C10: in the top-level copy [TFractal.polygon] raises [NameError] for the
    unbound name [w] at every label.  The packaged module returns, for a
    label [(w,i)] of the label space and [r] with [r ≠ 0] and [r^|w| ≠ 0],
    the base polygon of the tag [i] scaled by [1/r^|w|]; so the copies
    disagree there. *)
Theorem toplevel_copy_polygon_unbound
    {F : Type} `{ExactField F} (w_ r_ h1 h2 : F) (lab : TFractal.label) :
  TopLevelCopy.polygon w_ r_ h1 h2 lab = Raise (NameError "w") ∧
  (TFractal.polygon_labels lab = true →
   feqb r_ (of_Z 0) = false →
   feqb (fpow r_ (length lab.1)) (of_Z 0) = false →
   TFractal.polygon w_ r_ h1 h2 lab =
     Ok (scale (of_Z 1 / fpow r_ (length lab.1))%F
           (TFractal.box
              (if decide (lab.2 = 1 ∨ lab.2 = 3) then (w_ / r_)%F else w_)
              (if decide (lab.2 = 0) then h1 else h2))) ∧
   TopLevelCopy.polygon w_ r_ h1 h2 lab ≠ TFractal.polygon w_ r_ h1 h2 lab).
Proof.
  split; [reflexivity|].
  intros Hlab Hr Hpow. destruct lab as [w i]. simpl in *.
  unfold TFractal.polygon_labels in Hlab. apply bool_decide_eq_true in Hlab.
  simpl in Hlab.
  assert (Hpoly : TFractal.polygon w_ r_ h1 h2 (w, i) = Ok (scale (of_Z 1 / fpow r_ (length w))%F
           (TFractal.box
              (if decide (i = 1 ∨ i = 3) then (w_ / r_)%F else w_)
              (if decide (i = 0) then h1 else h2)))).
  { unfold TFractal.polygon, TFractal.base_polygon, checked_div. simpl.
    rewrite Hpow. simpl.
    destruct Hlab as [-> | [-> | [-> | ->]]]; simpl; rewrite ?Hr; done. }
  split; [done|]. rewrite Hpoly. discriminate.
Qed.

Lemma toplevel_copy_polygon_unbound_witness :
  TFractal.polygon (F:=Q) (1 # 1) (2 # 1) (1 # 1) (1 # 1)
    ([TFractal.L; TFractal.R; TFractal.L], 0) =
  Ok [(1 # 8, 0 # 1); (0 # 1, 1 # 8); (-1 # 8, 0 # 1); (0 # 1, -1 # 8)]%Q.
Proof.
  pose proof (toplevel_copy_polygon_unbound (F:=Q) (1 # 1) (2 # 1) (1 # 1) (1 # 1)
                ([TFractal.L; TFractal.R; TFractal.L], 0)) as [_ Hnew].
  destruct Hnew as [Hpoly _]; [reflexivity..|].
  rewrite Hpoly. reflexivity.
Defined.

(** * Further properties *)

(** ** The cached weights *)

(** The symmetries of the two weight sequences. *)
Section WeightSymmetry.
Context {F : Type} `{ExactField F} (l : F).
Import EInfinity.

Lemma get_white_opp n : n ≠ 1 → n ≠ -1 → get_white l (- n) = get_white l n.
Proof.
  intros Hn1 Hn2.
  assert (Hneg : ∀ m, m < -1 → get_white l m = get_white l (- m)).
  { intros m Hm. rewrite (get_white_unfold l m).
    repeat case_decide; try done; lia. }
  destruct (decide (n = 0)) as [-> | Hn0]; [done|].
  destruct (decide (n < 0)).
  - symmetry. apply Hneg. lia.
  - rewrite (Hneg (- n)) by lia. by rewrite Z.opp_involutive.
Qed.

Lemma get_black_reflect n : n ≠ 0 → n ≠ 1 → get_black l (1 - n) = get_black l n.
Proof.
  intros Hn0 Hn1.
  assert (Hneg : ∀ m, m < 0 → m ≠ -1 → get_black l m = get_black l (1 - m)).
  { intros m Hm Hm'. rewrite (get_black_unfold l m).
    repeat case_decide; try done; lia. }
  destruct (decide (n = -1)) as [-> | ?]; [done|].
  destruct (decide (n = 2)) as [-> | ?]; [done|].
  destruct (decide (n < 0)).
  - symmetry. by apply Hneg.
  - rewrite (Hneg (1 - n)) by lia. f_equal. lia.
Qed.
End WeightSymmetry.

Section CacheFootprint.
Context {F : Type} `{ExactField F} (l : F).
Import EInfinity.

Lemma cache_keys_store_white M n (v : F) st :
  Z.abs n <= M → cache_keys_within M st →
  cache_keys_within M (store_white n v st).
Proof.
  intros Hn Hst k. simpl. destruct (decide (n = k)) as [<- | Hne]; [done|].
  rewrite lookup_insert_ne by done. apply Hst.
Qed.

Lemma cache_keys_store_black M n (v : F) st :
  Z.abs n <= M → cache_keys_within M st →
  cache_keys_within M (store_black n v st).
Proof.
  intros Hn Hst k. simpl. destruct (decide (n = k)) as [<- | Hne]; [done|].
  rewrite lookup_insert_ne by done. apply Hst.
Qed.

Lemma run_footprint (M : Z) (d : nat) :
  (∀ n st v st', cache_keys_within M st → Z.abs n <= M →
     (n < 0 → - n + 1 <= M) →
     run_white l d n st = Some (v, st') → cache_keys_within M st') ∧
  (∀ n st v st', cache_keys_within M st → Z.abs n <= M →
     (n < 0 → - n + 1 <= M) →
     run_black l d n st = Some (v, st') → cache_keys_within M st').
Proof.
  induction d as [|d [IHw IHb]]; [split; intros; discriminate|].
  split; intros n st v st' Hst Hn Hneg; simpl.
  - destruct (white_cache st !! n) as [v0|] eqn:Hc; [by intros [= <- <-]|].
    repeat case_decide.
    1-3: by intros [= <- <-]; apply cache_keys_store_white.
    + destruct (run_white l d (n - 1) st) as [[x st1]|] eqn:E1; [|done].
      simpl. destruct (run_black l d n st1) as [[y st2]|] eqn:E2; [|done].
      simpl. intros [= <- <-]. apply cache_keys_store_white; [done|].
      eapply IHb; [| | |exact E2]; [|lia..].
      eapply IHw; [| | |exact E1]; [done|lia..].
    + destruct (run_white l d (- n) st) as [[x st1]|] eqn:E1; [|done].
      simpl. intros [= <- <-]. apply cache_keys_store_white; [done|].
      eapply IHw; [| | |exact E1]; [done|lia..].
  - destruct (black_cache st !! n) as [v0|] eqn:Hc; [by intros [= <- <-]|].
    repeat case_decide.
    1-2: by intros [= <- <-]; apply cache_keys_store_black.
    + destruct (run_black l d (n - 1) st) as [[x st1]|] eqn:E1; [|done].
      simpl. destruct (run_white l d (n - 1) st1) as [[y st2]|] eqn:E2;
        [|done].
      simpl. intros [= <- <-]. apply cache_keys_store_black; [done|].
      eapply IHw; [| | |exact E2]; [|lia..].
      eapply IHb; [| | |exact E1]; [done|lia..].
    + destruct (run_black l d (1 - n) st) as [[x st1]|] eqn:E1; [|done].
      simpl. intros [= <- <-]. apply cache_keys_store_black; [done|].
      eapply IHb; [| | |exact E1]; [done|lia..].
Qed.
End CacheFootprint.

(** X1: the cached methods compute the weights.  From caches that only
    hold correct values (the empty ones, for instance), a call of
    [get_white(n)] or [get_black(n)] with enough call depth returns the
    weight, and leaves caches that still only hold correct values and
    contain the old ones. *)
Theorem cached_weights_correct {F : Type} `{ExactField F} (l : F) (n : Z) (k : nat)
    (st : EInfinity.caches) :
  EInfinity.caches_sound l st →
  (∃ st', EInfinity.run_white l (S (EInfinity.dist EInfinity.White n) + k) n st
            = Some (EInfinity.get_white l n, st') ∧
          EInfinity.caches_sound l st' ∧ EInfinity.caches_le st st') ∧
  (∃ st', EInfinity.run_black l (S (EInfinity.dist EInfinity.Black n) + k) n st
            = Some (EInfinity.get_black l n, st') ∧
          EInfinity.caches_sound l st' ∧ EInfinity.caches_le st st').
Proof.
  intros Hst.
  destruct (run_returns l (S (EInfinity.dist EInfinity.White n) + k))
    as [Hrw _].
  destruct (run_returns l (S (EInfinity.dist EInfinity.Black n) + k))
    as [_ Hrb].
  destruct (Hrw n st ltac:(lia)) as [[v st1] Hw].
  destruct (Hrb n st ltac:(lia)) as [[v' st2] Hb].
  destruct (run_sound l (S (EInfinity.dist EInfinity.White n) + k))
    as [Hsw _].
  destruct (run_sound l (S (EInfinity.dist EInfinity.Black n) + k))
    as [_ Hsb].
  destruct (Hsw _ _ _ _ Hst Hw) as (-> & ? & ?).
  destruct (Hsb _ _ _ _ Hst Hb) as (-> & ? & ?).
  split; eauto.
Qed.

Lemma cached_weights_correct_witness :
  ∃ st', EInfinity.run_white (F:=Q) (4 # 1)
           (S (EInfinity.dist EInfinity.White (-4)) + 0) (-4)
           EInfinity.empty_caches
         = Some (EInfinity.get_white (4 # 1)%Q (-4), st').
Proof.
  destruct (cached_weights_correct (F:=Q) (4 # 1) (-4) 0
              EInfinity.empty_caches (empty_caches_sound _))
    as [(st' & Hrun & _) _].
  exists st'. exact Hrun.
Defined.

(** X2: a value that was returned is cached.  After a call returned [v],
    the cache of the method holds [v] at [n], and calling again returns [v]
    at once (call depth 1 is enough) without changing the caches. *)
Theorem cached_second_call_hits {F : Type} `{ExactField F} (l : F)
    (d : nat) (n : Z) (st st' : EInfinity.caches) (v : F) :
  (EInfinity.run_white l d n st = Some (v, st') →
     EInfinity.white_cache st' !! n = Some v ∧
     ∀ d', EInfinity.run_white l (S d') n st' = Some (v, st')) ∧
  (EInfinity.run_black l d n st = Some (v, st') →
     EInfinity.black_cache st' !! n = Some v ∧
     ∀ d', EInfinity.run_black l (S d') n st' = Some (v, st')).
Proof.
  assert (Hw : EInfinity.run_white l d n st = Some (v, st') →
               EInfinity.white_cache st' !! n = Some v).
  { destruct d as [|d]; [done|]. simpl.
    destruct (EInfinity.white_cache st !! n) as [v0|] eqn:Hc;
      [by intros [= <- <-]|].
    intros Hrun. apply bind_Some in Hrun as ([v1 st1] & _ & [= <- <-]).
    simpl. apply lookup_insert_eq. }
  assert (Hb : EInfinity.run_black l d n st = Some (v, st') →
               EInfinity.black_cache st' !! n = Some v).
  { destruct d as [|d]; [done|]. simpl.
    destruct (EInfinity.black_cache st !! n) as [v0|] eqn:Hc;
      [by intros [= <- <-]|].
    intros Hrun. apply bind_Some in Hrun as ([v1 st1] & _ & [= <- <-]).
    simpl. apply lookup_insert_eq. }
  split; intros Hrun; (split; [auto|]); intros d'; simpl.
  - by rewrite (Hw Hrun).
  - by rewrite (Hb Hrun).
Qed.

Lemma cached_second_call_hits_witness :
  ∃ v st',
    EInfinity.run_white (F:=Q) (4 # 1) 1 2 EInfinity.empty_caches = Some (v, st') ∧
    EInfinity.white_cache st' !! 2 = Some v ∧
    ∀ d', EInfinity.run_white (F:=Q) (4 # 1) (S d') 2 st' = Some (v, st').
Proof.
  eexists _, _. split; [reflexivity|].
  apply (proj1 (cached_second_call_hits (F:=Q) (4 # 1) 1 2
                  EInfinity.empty_caches _ _)).
  reflexivity.
Defined.

(** X3: the caches stay small.  A call at index [n] stores no key beyond
    [|n| + 1]: if every cached key is at most [M] in absolute value and
    [|n| + 1 <= M], the same holds after the call. *)
Theorem cached_weights_footprint {F : Type} `{ExactField F} (l : F)
    (M : Z) (d : nat) (n : Z) (st st' : EInfinity.caches) (v : F) :
  cache_keys_within M st → Z.abs n + 1 <= M →
  (EInfinity.run_white l d n st = Some (v, st') → cache_keys_within M st') ∧
  (EInfinity.run_black l d n st = Some (v, st') → cache_keys_within M st').
Proof.
  intros Hst Hn. destruct (run_footprint l M d) as [Hw Hb].
  split; intros Hrun; [eapply Hw | eapply Hb]; eauto; lia.
Qed.

Lemma empty_cache_keys_within {F : Type} (M : Z) :
  cache_keys_within M (@EInfinity.empty_caches F).
Proof. intros k [[v Hv] | [v Hv]]; simpl in Hv; by rewrite lookup_empty in Hv. Qed.

Lemma cached_weights_footprint_witness :
  ∃ v st',
    EInfinity.run_black (F:=Q) (4 # 1) 8 (-2) EInfinity.empty_caches
      = Some (v, st') ∧
    cache_keys_within 3 st'.
Proof.
  destruct (proj2 (run_returns (F:=Q) (4 # 1) 8) (-2) EInfinity.empty_caches)
    as [[v st'] Hrun]; [vm_compute; lia|].
  exists v, st'. split; [exact Hrun|].
  apply (proj2 (cached_weights_footprint (F:=Q) (4 # 1) 3 8 (-2)
                  EInfinity.empty_caches st' v (empty_cache_keys_within 3)
                  ltac:(lia))).
  exact Hrun.
Defined.

(** X4: the weights are symmetric.  [get_white(-n) = get_white(n)] except
    at [n = 1, -1], and [get_black(1-n) = get_black(n)] except at
    [n = 0, 1], for every value of lambda. *)
Theorem einfinity_weights_symmetric {F : Type} `{ExactField F} (l : F) (n : Z) :
  (n ≠ 1 → n ≠ -1 → EInfinity.get_white l (- n) = EInfinity.get_white l n) ∧
  (n ≠ 0 → n ≠ 1 → EInfinity.get_black l (1 - n) = EInfinity.get_black l n).
Proof. split; [apply get_white_opp | apply get_black_reflect]. Qed.

Lemma einfinity_weights_symmetric_witness :
  EInfinity.get_white (F:=Q) (4 # 1) (- 3) = EInfinity.get_white (4 # 1)%Q 3 ∧
  EInfinity.get_black (F:=Q) (4 # 1) (1 - 3) = EInfinity.get_black (4 # 1)%Q 3.
Proof.
  destruct (einfinity_weights_symmetric (F:=Q) (4 # 1) 3) as [Hw Hb].
  split; [apply Hw; lia | apply Hb; lia].
Defined.

(** ** The geometry of the E-infinity gluing *)

(** X5: the E-infinity gluing is a gluing of rectangles by translations.
    A side [e] in [{0,1,2,3}] of the rectangle [p] is glued to the opposite
    side [(e+2) mod 4] of a rectangle of the same width [2*get_black] when
    [e] is horizontal (0 or 2) and of the same height [get_white] when [e]
    is vertical (1 or 3). *)
Theorem einfinity_glued_sides_match {F : Type} `{ExactField F} (l : F) (p e : Z) :
  valid_edge e →
  (EInfinity.opposite_edge p e).2 = (e + 2) `mod` 4 ∧
  (e = 0 ∨ e = 2 →
     EInfinity.get_black l (EInfinity.opposite_edge p e).1 =
     EInfinity.get_black l p) ∧
  (e = 1 ∨ e = 3 →
     EInfinity.get_white l (EInfinity.opposite_edge p e).1 =
     EInfinity.get_white l p).
Proof.
  intros He.
  destruct (decide (p = 0 ∨ p = 1 ∨ p = -1 ∨ p = 2)) as [Hp | Hp].
  - destruct Hp as [-> | [-> | [-> | ->]]]; edge_cases He;
      (split; [reflexivity|]); by split; intros [? | ?].
  - rewrite einfinity_general_rule by lia.
    edge_cases He; case_decide; try (by exfalso; zmod); simpl;
      (split; [reflexivity|]); (split; intros [? | ?]; try done).
    all: first [ apply get_black_reflect; lia | apply get_white_opp; lia ].
Qed.

Lemma einfinity_glued_sides_match_witness :
  valid_edge 2 ∧
  EInfinity.get_black (F:=Q) (4 # 1) (EInfinity.opposite_edge (-5) 2).1 =
  EInfinity.get_black (F:=Q) (4 # 1) (-5).
Proof.
  assert (H2 : valid_edge 2) by (unfold valid_edge; lia).
  split; [exact H2|].
  apply (einfinity_glued_sides_match (F:=Q) (4 # 1) (-5) 2 H2). lia.
Defined.

(** X6: the cylinders of the E-infinity surface follow the graph.  Going
    right twice comes back to the start, and only the rectangle [-1] is its
    own right neighbour; going up fixes [0], cycles [1 -> 2 -> -1 -> 1], and
    swaps [p] and [1-p] for every other [p]. *)
Theorem einfinity_cylinders :
  (∀ p, einfinity_across 1 (einfinity_across 1 p) = p) ∧
  (∀ p, einfinity_across 1 p = p ↔ p = -1) ∧
  einfinity_across 2 0 = 0 ∧
  einfinity_across 2 1 = 2 ∧ einfinity_across 2 2 = -1 ∧
  einfinity_across 2 (-1) = 1 ∧
  (∀ p, p ≠ 0 → p ≠ 1 → p ≠ 2 → p ≠ -1 →
     einfinity_across 2 p = 1 - p ∧
     einfinity_across 2 (einfinity_across 2 p) = p).
Proof.
  unfold einfinity_across. split_and!; try done.
  - intros p.
    destruct (decide (p = 0 ∨ p = 1 ∨ p = -1 ∨ p = 2 ∨ p = -2)) as [Hp | Hp].
    + by destruct Hp as [-> | [-> | [-> | [-> | ->]]]].
    + rewrite (einfinity_general_rule p) by lia. simpl.
      rewrite einfinity_general_rule by lia. simpl. lia.
  - intros p.
    destruct (decide (p = 0 ∨ p = 1 ∨ p = -1 ∨ p = 2)) as [Hp | Hp].
    + by destruct Hp as [-> | [-> | [-> | ->]]].
    + rewrite (einfinity_general_rule p) by lia. simpl. lia.
  - intros p ? ? ? ?. rewrite (einfinity_general_rule p) by lia. simpl.
    split; [done|].
    destruct (decide (p = -2)) as [-> | ?]; [done|].
    rewrite einfinity_general_rule by lia. simpl. lia.
Qed.

Lemma einfinity_cylinders_witness :
  einfinity_across 2 (-2) = 3 ∧ einfinity_across 2 3 = -2.
Proof.
  destruct einfinity_cylinders as (_ & _ & _ & _ & _ & _ & Hup).
  destruct (Hup (-2)) as [H1 H2]; [lia..|].
  split; [exact H1 | exact (proj1 (Hup 3 ltac:(lia) ltac:(lia) ltac:(lia) ltac:(lia)))].
Defined.

(** ** The T-fractal *)

Lemma ascend_length w loop :
  (length (TFractal.ascend w loop).1 <= length w <=
   S (length (TFractal.ascend w loop).1))%nat.
Proof.
  destruct (word_nil_or_snoc w) as [-> | (w' & x & ->)].
  - simpl. lia.
  - rewrite ascend_snoc, length_app. simpl. lia.
Qed.

Lemma ascend_label w loop :
  (loop = 0 ∨ loop = 2) → TFractal.polygon_labels (TFractal.ascend w loop) = true.
Proof.
  intros Hl. destruct (word_nil_or_snoc w) as [-> | (w' & x & ->)].
  - by destruct Hl as [-> | ->].
  - rewrite ascend_snoc. by destruct x.
Qed.

(** X7: what [TFractal.opposite_edge] returns for an edge in [{0,1,2,3}].
    For a label of the label space: a label of the label space, whose word
    is at most one letter longer or shorter, and the edge [(e+2) mod 4].
    For a tag outside [{0,1,2,3}]: the [ValueError] of the tag check. *)
Theorem tfractal_opposite_edge_outcome (w : TFractal.word) (i e : Z) :
  valid_edge e →
  (TFractal.polygon_labels (w, i) = true →
     ∃ lab, TFractal.opposite_edge (w, i) e = Ok (lab, (e + 2) `mod` 4) ∧
            TFractal.polygon_labels lab = true ∧
            (length lab.1 <= S (length w))%nat ∧
            (length w <= S (length lab.1))%nat) ∧
  (TFractal.polygon_labels (w, i) = false →
     TFractal.opposite_edge (w, i) e =
     Raise (ValueError "i (={!r}) must be either 0,1,2 or 3")).
Proof.
  intros He. unfold TFractal.polygon_labels at 1 3. simpl. split.
  - intros Hi. apply bool_decide_eq_true in Hi.
    pose proof (ascend_length w 0). pose proof (ascend_length w 2).
    pose proof (ascend_label w 0). pose proof (ascend_label w 2).
    destruct Hi as [-> | [-> | [-> | ->]]]; edge_cases He;
      unfold TFractal.opposite_edge; simpl;
      (eexists; split; [reflexivity|]); simpl;
      rewrite ?length_app; simpl; (split; [auto|lia]).
  - intros Hi. apply bool_decide_eq_false in Hi.
    unfold TFractal.opposite_edge.
    edge_cases He; simpl; repeat case_decide; try done; lia.
Qed.

Lemma tfractal_opposite_edge_outcome_witness :
  (∃ lab, TFractal.opposite_edge ([TFractal.R], 3) 0 = Ok (lab, (0 + 2) `mod` 4) ∧
          TFractal.polygon_labels lab = true ∧
          (length lab.1 <= S (length [TFractal.R]))%nat ∧
          (length [TFractal.R] <= S (length lab.1))%nat) ∧
  TFractal.opposite_edge ([TFractal.R], 7) 0 =
    Raise (ValueError "i (={!r}) must be either 0,1,2 or 3").
Proof.
  assert (H0 : valid_edge 0) by (unfold valid_edge; lia).
  split.
  - exact (proj1 (tfractal_opposite_edge_outcome [TFractal.R] 3 0 H0) eq_refl).
  - exact (proj2 (tfractal_opposite_edge_outcome [TFractal.R] 7 0 H0) eq_refl).
Defined.

(** X8: the two copies of [TFractal.opposite_edge] agree.  Where the
    packaged method returns a pair the top-level copy returns the same
    pair, and where the packaged method raises, the copy returns [None]. *)
Theorem tfractal_copies_agree_on_gluing (p : TFractal.label) (e : Z) :
  TopLevelCopy.opposite_edge p e =
  match TFractal.opposite_edge p e with
  | Ok r => Some r
  | Raise _ => None
  end.
Proof.
  destruct p as [w i].
  unfold TopLevelCopy.opposite_edge, TFractal.opposite_edge,
    TopLevelCopy.by_edge_return, TFractal.by_edge.
  repeat case_decide; simpl; try done; lia.
Qed.

(** X9: [TFractal.polygon] on a label whose tag is outside [{0,1,2,3}]
    raises [ZeroDivisionError] when [r^|w|] is zero and otherwise
    [UnboundLocalError] for the local [w] of [_base_polygon]; no label
    check is made. *)
Theorem tfractal_polygon_bad_tag {F : Type} `{ExactField F}
    (w_ r_ h1 h2 : F) (lab : TFractal.label) :
  TFractal.polygon_labels lab = false →
  TFractal.polygon w_ r_ h1 h2 lab =
  if feqb (fpow r_ (length lab.1)) (of_Z 0)
  then Raise ZeroDivisionError
  else Raise (UnboundLocalError "w").
Proof.
  intros Hlab. apply bool_decide_eq_false in Hlab.
  unfold TFractal.polygon, TFractal.base_polygon, checked_div.
  destruct (feqb (fpow r_ (length lab.1)) (of_Z 0)); simpl; [done|].
  repeat case_decide; simpl; try done; lia.
Qed.

Lemma tfractal_polygon_bad_tag_witness :
  TFractal.polygon (F:=Q) (1 # 1) (2 # 1) (1 # 1) (1 # 1) ([TFractal.L], 4) =
    Raise (UnboundLocalError "w") ∧
  TFractal.polygon (F:=Q) (1 # 1) (0 # 1) (1 # 1) (1 # 1) ([TFractal.L], 4) =
    Raise ZeroDivisionError.
Proof.
  split.
  - exact (tfractal_polygon_bad_tag (F:=Q) (1 # 1) (2 # 1) (1 # 1) (1 # 1)
             ([TFractal.L], 4) eq_refl).
  - exact (tfractal_polygon_bad_tag (F:=Q) (1 # 1) (0 # 1) (1 # 1) (1 # 1)
             ([TFractal.L], 4) eq_refl).
Defined.

Lemma tfractal_polygon_ok {F : Type} `{ExactField F}
    (w_ r_ h1 h2 : F) (w : TFractal.word) (i : Z) :
  TFractal.polygon_labels (w, i) = true →
  feqb r_ (of_Z 0) = false →
  feqb (fpow r_ (length w)) (of_Z 0) = false →
  TFractal.polygon w_ r_ h1 h2 (w, i) =
    Ok (scale (of_Z 1 / fpow r_ (length w))%F
          (TFractal.box
             (if decide (i = 1 ∨ i = 3) then (w_ / r_)%F else w_)
             (if decide (i = 0) then h1 else h2))).
Proof.
  intros Hlab Hr Hpow.
  unfold TFractal.polygon_labels in Hlab. apply bool_decide_eq_true in Hlab.
  simpl in Hlab.
  unfold TFractal.polygon, TFractal.base_polygon, checked_div. simpl.
  rewrite Hpow. simpl.
  destruct Hlab as [-> | [-> | [-> | ->]]]; simpl; rewrite ?Hr; done.
Qed.

Section RationalGeometry.
Open Scope Q_scope.

Lemma QQ_feqb_false (x : Q) : ¬ x == 0 → feqb x (of_Z 0) = false.
Proof.
  intros Hx. simpl. destruct (Qeq_bool x (inject_Z 0)) eqn:E; [|done].
  apply Qeq_bool_iff in E. done.
Qed.

Lemma QQ_fpow_nonzero (r : Q) (n : nat) : ¬ r == 0 → ¬ fpow r n == 0.
Proof.
  intros Hr. induction n as [|n IH]; simpl.
  - discriminate.
  - rewrite Qred_correct. intros Hz. apply Qmult_integral in Hz. tauto.
Qed.

End RationalGeometry.

(** X10: the T-fractal is a translation surface.  Over the rationals with
    [r ≠ 0], the two edges that [opposite_edge] glues are opposite vectors:
    the polygons of both labels exist and edge [e'] of the second is the
    negative of edge [e] of the first. *)
Theorem tfractal_glued_edges_opposite
    (w_ r_ h1 h2 : Q) (lab lab' : TFractal.label) (e e' : Z) :
  ¬ (r_ == 0)%Q →
  TFractal.polygon_labels lab = true → valid_edge e →
  TFractal.opposite_edge lab e = Ok (lab', e') →
  ∃ P P' v v',
    TFractal.polygon w_ r_ h1 h2 lab = Ok P ∧
    TFractal.polygon w_ r_ h1 h2 lab' = Ok P' ∧
    edge_vector P e = Some v ∧ edge_vector P' e' = Some v' ∧
    (v'.1 == - v.1)%Q ∧ (v'.2 == - v.2)%Q.
Proof.
  intros Hr Hlab He Hglue. destruct lab as [w i].
  assert (Hr0 := QQ_feqb_false r_ Hr).
  assert (Hpow : ∀ n, feqb (fpow r_ n) (of_Z 0) = false)
    by (intros n; apply QQ_feqb_false, QQ_fpow_nonzero, Hr).
  assert (Hpn : ∀ n, ¬ (fpow r_ n == 0)%Q)
    by (intros n; apply QQ_fpow_nonzero, Hr).
  destruct (tfractal_involution (w, i) e Hlab He)
    as (p' & e'' & Hglue' & Hlab' & _).
  cbn [glue in_labels tfractal_gluing] in Hglue', Hlab'.
  rewrite Hglue in Hglue'.
  injection Hglue' as <- <-. destruct lab' as [w' i'].
  rewrite (tfractal_polygon_ok _ _ _ _ w i) by done.
  rewrite (tfractal_polygon_ok _ _ _ _ w' i') by done.
  unfold TFractal.polygon_labels in Hlab. apply bool_decide_eq_true in Hlab.
  simpl in Hlab.
  assert (Hw : w = [] ∨ ∃ w0 x, w = w0 ++ [x]) by apply word_nil_or_snoc.
  destruct Hlab as [-> | [-> | [-> | ->]]]; edge_cases He;
    unfold TFractal.opposite_edge in Hglue; simpl in Hglue;
    try (destruct Hw as [-> | (w0 & x & ->)];
         [rewrite ascend_nil in Hglue
         |rewrite ascend_snoc in Hglue; destruct x]);
    injection Hglue as <- <- <-;
    (eexists _, _, _, _; split_and!; [reflexivity..| |]);
    rewrite ?length_app; simpl length; rewrite ?Nat.add_1_r;
    repeat case_decide; try lia;
    cbn [fst snd fpow fmul fdiv fopp of_Z QQ];
    rewrite ?Qred_correct;
    try (generalize (Hpn (length w)); generalize (fpow r_ (length w)));
    try (generalize (Hpn (length w0)); generalize (fpow r_ (length w0)));
    intros; try (field; auto).
Qed.

Lemma tfractal_glued_edges_opposite_witness :
  ∃ P P' v v',
    TFractal.polygon (1 # 1) (2 # 1) (1 # 1) (1 # 1) ([TFractal.L], 1) = Ok P ∧
    TFractal.polygon (1 # 1) (2 # 1) (1 # 1) (1 # 1)
      ([TFractal.L; TFractal.L], 2) = Ok P' ∧
    edge_vector P 0 = Some v ∧ edge_vector P' 2 = Some v' ∧
    (v'.1 == - v.1)%Q ∧ (v'.2 == - v.2)%Q.
Proof.
  apply (tfractal_glued_edges_opposite (1 # 1) (2 # 1) (1 # 1) (1 # 1)
           ([TFractal.L], 1) ([TFractal.L; TFractal.L], 2) 0 2).
  - intros Hz. discriminate Hz.
  - reflexivity.
  - unfold valid_edge. lia.
  - reflexivity.
Defined.

(** X11: the T-fractal is self-similar.  Over the rationals with [r ≠ 0],
    the polygon of [(w x, i)] is the polygon of [(w, i)] with every edge
    divided by [r], and the four edges of a polygon sum to zero. *)
Theorem tfractal_polygon_self_similar
    (w_ r_ h1 h2 : Q) (w : TFractal.word) (x : TFractal.letter) (i : Z) :
  ¬ (r_ == 0)%Q → TFractal.polygon_labels (w, i) = true →
  ∃ P P',
    TFractal.polygon w_ r_ h1 h2 (w, i) = Ok P ∧
    TFractal.polygon w_ r_ h1 h2 (w ++ [x], i) = Ok P' ∧
    Forall2 (fun v v' => (v'.1 == v.1 / r_)%Q ∧ (v'.2 == v.2 / r_)%Q) P P' ∧
    ∃ v0 v1 v2 v3, P = [v0; v1; v2; v3] ∧
      (v0.1 + v1.1 + v2.1 + v3.1 == 0)%Q ∧ (v0.2 + v1.2 + v2.2 + v3.2 == 0)%Q.
Proof.
  intros Hr Hlab.
  assert (Hr0 := QQ_feqb_false r_ Hr).
  assert (Hpow : ∀ n, feqb (fpow r_ n) (of_Z 0) = false)
    by (intros n; apply QQ_feqb_false, QQ_fpow_nonzero, Hr).
  rewrite (tfractal_polygon_ok _ _ _ _ w i) by done.
  rewrite (tfractal_polygon_ok _ _ _ _ (w ++ [x]) i) by done.
  eexists _, _. split; [reflexivity|]. split; [reflexivity|].
  rewrite length_app. simpl length. rewrite Nat.add_1_r.
  generalize (QQ_fpow_nonzero r_ (length w) Hr).
  cbn [scale TFractal.box map fst snd fpow fmul fdiv fopp of_Z QQ].
  generalize (fpow r_ (length w)). intros X HX.
  set (a := if decide (i = 1 ∨ i = 3) then _ else _).
  set (b := if decide (i = 0) then _ else _).
  clearbody a b.
  split.
  - repeat (apply Forall2_cons; split;
            [cbn [fst snd]; rewrite ?Qred_correct; split; field; auto|]).
    apply Forall2_nil_2.
  - eexists _, _, _, _. split; [reflexivity|]. cbn [fst snd].
    rewrite ?Qred_correct. split; field; auto.
Qed.

Lemma tfractal_polygon_self_similar_witness :
  ∃ P P',
    TFractal.polygon (1 # 1) (2 # 1) (1 # 1) (1 # 1) ([TFractal.L], 3) = Ok P ∧
    TFractal.polygon (1 # 1) (2 # 1) (1 # 1) (1 # 1)
      ([TFractal.L; TFractal.R], 3) = Ok P' ∧
    Forall2 (fun v v' => (v'.1 == v.1 / (2 # 1))%Q ∧ (v'.2 == v.2 / (2 # 1))%Q)
      P P'.
Proof.
  destruct (tfractal_polygon_self_similar (1 # 1) (2 # 1) (1 # 1) (1 # 1)
              [TFractal.L] TFractal.R 3) as (P & P' & HP & HP' & Hs & _).
  - intros Hz. discriminate Hz.
  - reflexivity.
  - exists P, P'. split_and!; assumption.
Defined.

(** ** Chamanara's surface *)

(** X15: the polygon of Chamanara's surface over the rationals, for
    [alpha ≠ 1] and a constructor that accepts it: its four edges sum to
    zero, edge 3 is [-alpha] times edge 1, and the two edges that
    [opposite_edge] glues are parallel. *)
Theorem chamanara_polygon_geometry (in_Fields : bool) (alpha : Q) :
  ¬ (alpha == 1)%Q →
  ∃ v0 v1 v2 v3,
    Chamanara.ChamanaraPolygon Ok in_Fields alpha = Ok [v0; v1; v2; v3] ∧
    (v0.1 + v1.1 + v2.1 + v3.1 == 0)%Q ∧
    (v0.2 + v1.2 + v2.2 + v3.2 == 0)%Q ∧
    (v3.1 == - (alpha * v1.1))%Q ∧ (v3.2 == - (alpha * v1.2))%Q ∧
    ∀ p e, valid_edge e →
      ∃ v v', edge_vector [v0; v1; v2; v3] e = Some v ∧
              edge_vector [v0; v1; v2; v3] (Chamanara.opposite_edge p e).2
                = Some v' ∧
              (v.1 * v'.2 - v.2 * v'.1 == 0)%Q.
Proof.
  intros Ha.
  assert (Hden : ¬ (1 - alpha == 0)%Q).
  { intros Hz. apply Ha. rewrite <- (Qplus_0_l alpha), <- Hz. ring. }
  unfold Chamanara.ChamanaraPolygon, checked_div.
  assert (Hne : feqb (of_Z 1 - alpha)%F (of_Z 0) = false).
  { simpl. destruct (Qeq_bool _ _) eqn:E; [|done].
    apply Qeq_bool_iff in E. rewrite Qred_correct in E. done. }
  rewrite Hne. cbn [mbind result_bind].
  eexists _, _, _, _. split; [reflexivity|].
  cbn [fst snd fmul fdiv fsub fopp of_Z QQ].
  split_and!.
  1-4: rewrite ?Qred_correct; field; done.
  intros p e He. unfold Chamanara.opposite_edge.
  edge_cases He; repeat case_decide; try lia;
    (eexists _, _; split_and!; [reflexivity..|]);
    cbn [fst snd]; rewrite ?Qred_correct; field; done.
Qed.

Lemma chamanara_polygon_geometry_witness :
  ∃ v0 v1 v2 v3,
    Chamanara.ChamanaraPolygon Ok true (1 # 2) = Ok [v0; v1; v2; v3] ∧
    (v0.1 + v1.1 + v2.1 + v3.1 == 0)%Q ∧
    (v3.1 == - ((1 # 2) * v1.1))%Q.
Proof.
  destruct (chamanara_polygon_geometry true (1 # 2))
    as (v0 & v1 & v2 & v3 & HP & Hx & _ & Hd & _).
  - intros Hz. discriminate Hz.
  - exists v0, v1, v2, v3. split_and!; assumption.
Defined.

(** ** The generators *)

Lemma range_succ (n : nat) :
  Generators.range (Z.of_nat (S n)) = Generators.range (Z.of_nat n) ++ [Z.of_nat n].
Proof.
  unfold Generators.range. rewrite !Nat2Z.id, seq_S, map_app. done.
Qed.

Lemma range_nonpos n : n <= 0 → Generators.range n = [].
Proof. intros Hn. unfold Generators.range. by replace (Z.to_nat n) with 0%nat by lia. Qed.

Lemma dict_of_items_snoc {K V} `{Countable K} (items : list (K * V)) k v :
  Generators.dict_of_items (items ++ [(k, v)]) = <[k := v]> (Generators.dict_of_items items).
Proof. unfold Generators.dict_of_items. by rewrite foldl_app. Qed.

(** One comprehension [{(c,i): (c',N-i-1) for i in Generators.range(n)}]. *)
Lemma lookup_comprehension (c c' N : Z) (n : nat) (k j : Z) :
  Generators.dict_of_items (map (fun i => ((c, i), (c', N - i - 1))) (Generators.range (Z.of_nat n)))
    !! (k, j) =
  if decide (k = c ∧ 0 <= j < Z.of_nat n) then Some (c', N - j - 1) else None.
Proof.
  induction n as [|n IH].
  - change (Generators.range (Z.of_nat 0)) with (@nil Z). unfold Generators.dict_of_items. simpl.
    rewrite lookup_empty. case_decide; [lia|done].
  - rewrite range_succ, map_app. simpl map. rewrite dict_of_items_snoc.
    destruct (decide ((c, Z.of_nat n) = (k, j))) as [[= <- <-] | Hne].
    + rewrite lookup_insert_eq. clear IH. by rewrite decide_True by lia.
    + rewrite lookup_insert_ne by done. rewrite IH.
      repeat case_decide; try done; try lia.
      exfalso. apply Hne. f_equal; lia.
Qed.

Lemma lookup_billard_glue (n k j : Z) :
  Generators.billard_glue n !! (k, j) =
  if decide ((k = 0 ∨ k = 1) ∧ 0 <= j < n) then Some (1 - k, n - j - 1)
  else None.
Proof.
  unfold Generators.billard_glue, Generators.update. rewrite lookup_union.
  destruct (decide (0 <= n)) as [Hn | Hn].
  - destruct (Z_of_nat_complete n Hn) as [m ->].
    rewrite !lookup_comprehension.
    repeat case_decide; try done; try lia.
    all: destruct_and!; subst; reflexivity.
  - rewrite !range_nonpos by lia. simpl.
    unfold Generators.dict_of_items. simpl. rewrite lookup_empty.
    case_decide; [lia|done].
Qed.

(** X12: the gluing table of [billard(P)] is an involution without fixed
    point on the edges [(k,i)], [k] in [{0,1}], [0 <= i < n], and holds no
    other key: [(k,i)] goes to [(1-k, n-i-1)]. *)
Theorem billard_glue_involution (n : Z) :
  (∀ k i, is_Some (Generators.billard_glue n !! (k, i)) ↔ (k = 0 ∨ k = 1) ∧ 0 <= i < n) ∧
  (∀ k i v, Generators.billard_glue n !! (k, i) = Some v →
     v = (1 - k, n - i - 1) ∧
     Generators.billard_glue n !! v = Some (k, i) ∧ v ≠ (k, i)).
Proof.
  split.
  - intros k i. rewrite lookup_billard_glue. case_decide; [done|].
    split; [by intros [? [=]] | done].
  - intros k i v. rewrite lookup_billard_glue. case_decide as Hk; [|done].
    intros [= <-]. destruct Hk as [Hk Hi].
    split; [done|]. rewrite lookup_billard_glue. split.
    + rewrite decide_True by lia. f_equal. f_equal; lia.
    + intros [= ? ?]. lia.
Qed.

Lemma billard_glue_involution_witness :
  Generators.billard_glue 3 !! (0, 0) = Some (1, 2) ∧
  Generators.billard_glue 3 !! (1, 2) = Some (0, 0).
Proof.
  assert (H00 : Generators.billard_glue 3 !! (0, 0) = Some (1, 2)) by reflexivity.
  split; [exact H00|].
  exact (proj1 (proj2 (proj2 (billard_glue_involution 3) 0 0 (1, 2) H00))).
Defined.

(** X13: the maps of [infinite_staircase2].  [rr] undoes [r] and [uu]
    undoes [u], neither [r] nor [u] fixes a label and they never agree;
    the class [InfiniteStaircase] moves by [r] across its edges 0 and 2 and
    by [u] across its edges 1 and 3. *)
Theorem staircase_label_maps :
  (∀ x, Generators.infinite_staircase2_rr (Generators.infinite_staircase2_r x) = x ∧
        Generators.infinite_staircase2_r (Generators.infinite_staircase2_rr x) = x ∧
        Generators.infinite_staircase2_uu (Generators.infinite_staircase2_u x) = x ∧
        Generators.infinite_staircase2_u (Generators.infinite_staircase2_uu x) = x) ∧
  (∀ x, Generators.infinite_staircase2_r x ≠ x ∧ Generators.infinite_staircase2_u x ≠ x ∧
        Generators.infinite_staircase2_r x ≠ Generators.infinite_staircase2_u x) ∧
  (∀ p e, valid_edge e →
     (InfiniteStaircase.opposite_edge p e).1 =
     if decide (e = 0 ∨ e = 2) then Generators.infinite_staircase2_r p
     else Generators.infinite_staircase2_u p).
Proof.
  unfold Generators.infinite_staircase2_r, Generators.infinite_staircase2_u,
    Generators.infinite_staircase2_rr, Generators.infinite_staircase2_uu.
  split_and!.
  - intros x. split_and!; repeat case_decide; first [lia | zmod].
  - intros x. split_and!; repeat case_decide; first [lia | zmod].
  - intros p e He. unfold InfiniteStaircase.opposite_edge.
    edge_cases He; repeat case_decide; simpl; first [lia | zmod].
Qed.

Lemma staircase_label_maps_witness :
  valid_edge 1 ∧
  (InfiniteStaircase.opposite_edge 4 1).1 =
  if decide (1 = 0 ∨ 1 = 2) then Generators.infinite_staircase2_r 4
  else Generators.infinite_staircase2_u 4.
Proof.
  assert (H1 : valid_edge 1) by (unfold valid_edge; lia).
  split; [exact H1|].
  exact (proj2 (proj2 staircase_label_maps) 4 1 H1).
Defined.

Lemma adjacencies_succ (m : nat) :
  Generators.half_dilation_adjacencies (Z.of_nat (S m)) =
  Generators.half_dilation_adjacencies (Z.of_nat m) ++
    [(- Z.of_nat m, 3); (Z.of_nat m + 1, 3)].
Proof.
  unfold Generators.half_dilation_adjacencies. by rewrite range_succ, foldl_app.
Qed.

Lemma adjacent_labels_succ (m : nat) :
  adjacent_labels (Z.of_nat (S m)) =
  adjacent_labels (Z.of_nat m) ++ [- Z.of_nat m - 1; Z.of_nat m + 2].
Proof.
  unfold adjacent_labels. rewrite adjacencies_succ, map_app. f_equal.
  simpl. unfold Chamanara.opposite_edge.
  repeat case_decide; simpl; try lia.
  by replace (Z.of_nat m + 1 + 1) with (Z.of_nat m + 2) by lia.
Qed.

Lemma elem_of_adjacent_labels (m : nat) (q : Z) :
  q ∈ adjacent_labels (Z.of_nat m) ↔
  - Z.of_nat m <= q <= Z.of_nat m + 1 ∧ q ≠ 0.
Proof.
  induction m as [|m IH].
  - change (adjacent_labels (Z.of_nat 0)) with [1].
    rewrite list_elem_of_singleton. lia.
  - rewrite adjacent_labels_succ, elem_of_app, IH.
    rewrite elem_of_cons, list_elem_of_singleton. lia.
Qed.

(** X14: the adjacencies of [chamanara_half_dilation_surface(alpha, n)],
    [n >= 0]: there are [2n+1] of them, each an edge 1 or 3 of a polygon
    with label in [[-n, n]], and crossing them leads to every polygon with
    label in [[-n, n+1]] other than the base polygon, each exactly once. *)
Theorem half_dilation_adjacencies_span (n : Z) :
  0 <= n →
  Z.of_nat (length (Generators.half_dilation_adjacencies n)) = 2 * n + 1 ∧
  (∀ p e, (p, e) ∈ Generators.half_dilation_adjacencies n →
     (e = 1 ∨ e = 3) ∧ - n <= p <= n) ∧
  NoDup (adjacent_labels n) ∧
  (∀ q, q ∈ adjacent_labels n ↔ - n <= q <= n + 1 ∧ q ≠ Chamanara.base_label).
Proof.
  intros Hn. destruct (Z_of_nat_complete n Hn) as [m ->]. clear Hn.
  split_and!.
  - induction m as [|m IH]; [done|].
    rewrite adjacencies_succ, length_app. simpl length. lia.
  - induction m as [|m IH]; intros p e.
    + change (Generators.half_dilation_adjacencies (Z.of_nat 0)) with [(0, 1)].
      rewrite list_elem_of_singleton. intros [= -> ->]. lia.
    + rewrite adjacencies_succ, elem_of_app, elem_of_cons,
        list_elem_of_singleton.
      intros [Hin | [[= -> ->] | [= -> ->]]]; [|lia..].
      specialize (IH _ _ Hin). lia.
  - induction m as [|m IH].
    + change (adjacent_labels (Z.of_nat 0)) with [1].
      apply NoDup_singleton.
    + rewrite adjacent_labels_succ. apply NoDup_app. split; [done|]. split.
      * intros q Hq. apply elem_of_adjacent_labels in Hq.
        rewrite elem_of_cons, list_elem_of_singleton. lia.
      * apply NoDup_cons. split; [|apply NoDup_singleton].
        rewrite list_elem_of_singleton. lia.
  - intros q. apply elem_of_adjacent_labels.
Qed.

Lemma half_dilation_adjacencies_span_witness :
  Z.of_nat (length (Generators.half_dilation_adjacencies 8)) = 2 * 8 + 1 ∧
  NoDup (adjacent_labels 8).
Proof.
  destruct (half_dilation_adjacencies_span 8) as (Hlen & _ & Hnd & _); [lia|].
  split; [exact Hlen | exact Hnd].
Defined.

(** X16: the cylinders of the infinite staircase.  Going right twice or
    up twice comes back to the start; edges 1 and 3 lead to the same
    square, edges 0 and 2 to the same square, and these two squares are
    [p+1] and [p-1]. *)
Theorem staircase_cylinders (p : Z) :
  let right := fun q => (InfiniteStaircase.opposite_edge q 1).1 in
  let up := fun q => (InfiniteStaircase.opposite_edge q 2).1 in
  right (right p) = p ∧ up (up p) = p ∧
  (InfiniteStaircase.opposite_edge p 3).1 = right p ∧
  (InfiniteStaircase.opposite_edge p 0).1 = up p ∧
  ((right p = p + 1 ∧ up p = p - 1) ∨ (right p = p - 1 ∧ up p = p + 1)).
Proof.
  simpl. unfold InfiniteStaircase.opposite_edge.
  split_and!; repeat (case_decide; simpl in *); first [lia | zmod].
Qed.
